(** * The execution-graph builder of dataform ([api/builder.ts])

    A shallow embedding of [Builder.build] and of the functions it calls,
    followed by the properties of the builder that the specification
    states.  Two models are given:

    - a value model, in which arrays are lists and a node object is
      identified by its position in [allNodes];
    - a store model, in which the arrays of strings and the node objects of
      the JavaScript heap are explicit, so that the sharing between the
      [dependencies] array of an entity and the node created from it, and
      the [push] in place on [includedNodeNames], are visible.  It is proved
      to compute what the value model computes. *)

From stdpp Require Import base option list strings gmap.
From Stdlib Require Import Ascii.

Open Scope string_scope.
Open Scope list_scope.
Open Scope nat_scope.
Open Scope stdpp_scope.

(** ** The pattern matcher *)

(** Modelled from the spec: [utils.matchPatterns] of [@dataform/core] is
    imported by [builder.ts] but its source is not part of the reviewed
    files.  The specification (section 4.1) gives its contract: a selector
    matches a candidate by exact equality or by wildcard, a [*] standing
    for any run of characters (so a trailing [*] is "any suffix" and a
    leading [*] "any prefix"); the result is the sub-sequence of the
    candidates matched by at least one selector, in candidate order and
    without duplicates. *)
Fixpoint matchPattern (pattern : string) : string → bool :=
  match pattern with
  | EmptyString =>
      λ value, match value with EmptyString => true | String _ _ => false end
  | String c rest =>
      if Ascii.eqb c "*"%char then
        fix star (value : string) : bool :=
          matchPattern rest value ||
          match value with
          | EmptyString => false
          | String _ value' => star value'
          end
      else
        λ value,
          match value with
          | EmptyString => false
          | String d value' => Ascii.eqb c d && matchPattern rest value'
          end
  end.

(** Modelled from the spec: [utils.matchPatterns(patterns, values)], see
    [matchPattern]. *)
Definition matchPatterns (patterns values : list string) : list string :=
  remove_dups
    (filter (λ value, Exists (λ pattern, matchPattern pattern value) patterns)
            values).

(** ** Errors and outcomes *)

(** The two [throw Error(...)] of [build], and the [TypeError] that
    JavaScript raises when [checkCircular] reads [node.dependencies] of an
    [undefined] node. *)
Inductive BuildError : Type :=
| MissingDependency (node dependency : string)
| CircularDependency (dependents : list string) (node : string)
| UndefinedNode.

Definition quote : string := String "034"%char EmptyString.

(** The text given to [Error(...)]. *)
Definition message (e : BuildError) : string :=
  match e with
  | MissingDependency node dependency =>
      "Node " +:+ quote +:+ node +:+ quote +:+ " depends on " +:+ quote
        +:+ dependency +:+ quote +:+ " which does not exist."
  | CircularDependency dependents node =>
      "Circular dependency detected in chain: ["
        +:+ String.concat " > " dependents +:+ " > " +:+ node +:+ "]"
  | UndefinedNode => "Cannot read property 'dependencies' of undefined"
  end.

(** What a call does: it returns, it throws, or the recursion budget of the
    model is exhausted. *)
Inductive outcome (A : Type) : Type :=
| Done (a : A)
| Throw (e : BuildError)
| OutOfFuel.
Arguments Done {A} a.
Arguments Throw {A} e.
Arguments OutOfFuel {A}.

Global Instance outcome_bind : MBind outcome := λ A B k o,
  match o with
  | Done a => k a
  | Throw e => Throw e
  | OutOfFuel => OutOfFuel
  end.

(** [array.forEach(f)] for a callback that may throw: the first exception
    ends the iteration. *)
Fixpoint forEach {A : Type} (f : A → outcome unit) (l : list A) : outcome unit :=
  match l with
  | [] => Done tt
  | x :: l' => f x ;; forEach f l'
  end.

(** ** Data model *)

Record ExecutionTask : Type := {
  type : option string;      (* [None]: the object has no [type] field *)
  statement : string
}.

Record ExecutionNode : Type := {
  name : string;
  dependencies : list string;
  tasks : list ExecutionTask
}.

Record RunConfig : Type := {
  rc_nodes : option (list string);   (* [None]: [runConfig.nodes] is absent *)
  includeDependencies : bool
}.

Record Operation : Type := {
  o_name : string;
  o_dependencies : list string;
  statements : list string
}.

Record Assertion : Type := {
  a_name : string;
  a_dependencies : list string;
  queries : list string
}.

Section Builder.

(** [ProjectConfig] is opaque to the builder; [Body] stands for the fields
    of a materialization that only the adapter reads (type, target, query,
    ...). *)
Variables ProjectConfig Body : Type.

Record Materialization : Type := {
  m_name : string;
  m_dependencies : list string;
  m_body : Body;
  pres : list string;
  posts : list string;
  m_assertions : list string
}.

Record CompiledGraph : Type := {
  projectConfig : ProjectConfig;
  materializations : list Materialization;
  operations : list Operation;
  assertions : list Assertion
}.

Record ExecutionGraph : Type := {
  eg_projectConfig : ProjectConfig;
  eg_runConfig : RunConfig;
  eg_nodes : list ExecutionNode
}.

(** [adapters.create(projectConfig).build(materialization, runConfig)]: the
    adapter is an external collaborator, a function of its arguments. *)
Variable adapter_build :
  ProjectConfig → Materialization → RunConfig → list ExecutionTask.

(** *** Translation *)

Definition buildMaterialization (pc : ProjectConfig) (rc : RunConfig)
    (materialization : Materialization) : ExecutionNode :=
  {| name := m_name materialization;
     dependencies := m_dependencies materialization;
     tasks :=
       ((λ pre, {| type := None; statement := pre |}) <$> pres materialization)
       ++ adapter_build pc materialization rc
       ++ ((λ post, {| type := None; statement := post |})
             <$> posts materialization)
       ++ ((λ assertion, {| type := Some "assertion"; statement := assertion |})
             <$> m_assertions materialization) |}.

Definition buildOperation (operation : Operation) : ExecutionNode :=
  {| name := o_name operation;
     dependencies := o_dependencies operation;
     tasks := (λ s, {| type := Some "statement"; statement := s |})
                <$> statements operation |}.

Definition buildAssertion (assertion : Assertion) : ExecutionNode :=
  {| name := a_name assertion;
     dependencies := a_dependencies assertion;
     tasks := (λ query, {| type := Some "assertion"; statement := query |})
                <$> queries assertion |}.

(** [allNodes] of [build]. *)
Definition translate (g : CompiledGraph) (rc : RunConfig) : list ExecutionNode :=
  (buildMaterialization (projectConfig g) rc <$> materializations g)
  ++ (buildOperation <$> operations g)
  ++ (buildAssertion <$> assertions g).

(** *** Validation *)

(** [allNodes.forEach(node => (nodeNameMap[node.name] = node))].  A node
    object is identified by its position in [allNodes]; [fillNameMap m i l]
    runs the loop over [l], whose first node has position [i]. *)
Fixpoint fillNameMap (m : gmap string nat) (i : nat) (l : list ExecutionNode)
    : gmap string nat :=
  match l with
  | [] => m
  | node :: l' => fillNameMap (<[name node := i]> m) (S i) l'
  end.

Definition nodeNameMap (allNodes : list ExecutionNode) : gmap string nat :=
  fillNameMap ∅ 0 allNodes.

(** "Check all dependencies actually exist." *)
Definition checkDependenciesExist (allNodes : list ExecutionNode)
    (allNodeNames : list string) : outcome unit :=
  forEach (λ node,
    forEach (λ dependency,
      if bool_decide (dependency ∈ allNodeNames) then Done tt
      else Throw (MissingDependency (name node) dependency))
      (dependencies node))
    allNodes.

Section CheckCircular.

Variable allNodes : list ExecutionNode.
Variable nameMap : gmap string nat.

Definition nodeName (i : nat) : string :=
  default "" (name <$> allNodes !! i).

(** [checkCircular(node, dependents)]; [node] and the members of
    [dependents] are node objects, compared by identity by [indexOf].
    The recursion of the source is not structural: [fuel] bounds its
    depth. *)
Fixpoint checkCircular (fuel : nat) (node : nat) (dependents : list nat)
    : outcome unit :=
  match fuel with
  | 0 => OutOfFuel
  | S fuel' =>
      if bool_decide (node ∈ dependents) then
        Throw (CircularDependency (nodeName <$> dependents) (nodeName node))
      else
        match allNodes !! node with
        | None => Throw UndefinedNode
        | Some n =>
            forEach (λ d,
              match nameMap !! d with
              | None => Throw UndefinedNode
              | Some node' => checkCircular fuel' node' (dependents ++ [node])
              end)
              (dependencies n)
        end
  end.

(** [allNodes.forEach(node => checkCircular(node, []))]. *)
Definition checkAllCircular (fuel : nat) : outcome unit :=
  forEach (λ i, checkCircular fuel i []) (seq 0 (length allNodes)).

End CheckCircular.

(** *** Selection *)

(** The initial [includedNodeNames]. *)
Definition initialNames (rc : RunConfig) (allNodeNames : list string)
    : list string :=
  match rc_nodes rc with
  | Some (p :: ps) => matchPatterns (p :: ps) allNodeNames
  | _ => allNodeNames
  end.

(** [allNodes.filter(node => includedNodeNames.indexOf(node.name) >= 0)]. *)
Definition includedOf (allNodes : list ExecutionNode) (names : list string)
    : list ExecutionNode :=
  filter (λ node, name node ∈ names) allNodes.

(** [if (includedNodeNames.indexOf(nodeName) < 0) includedNodeNames.push(nodeName)]. *)
Definition pushNew (names : list string) (nodeName : string) : list string :=
  if bool_decide (nodeName ∈ names) then names else names ++ [nodeName].

Definition matchingNodeNames (allNodeNames : list string) (node : ExecutionNode)
    : list string :=
  match dependencies node with
  | [] => []
  | _ :: _ => matchPatterns (dependencies node) allNodeNames
  end.

(** The body of [includedNodes.forEach(node => ...)]; the state is the pair
    of [includedNodeNames] and [includedNodes]. *)
Definition expandNode (allNodes : list ExecutionNode) (allNodeNames : list string)
    (st : list string * list ExecutionNode) (node : ExecutionNode)
    : list string * list ExecutionNode :=
  let names := foldl pushNew st.1 (matchingNodeNames allNodeNames node) in
  (names, includedOf allNodes names).

(** One round of the [for] loop: [forEach] walks the array that
    [includedNodes] named when the round began. *)
Definition expandPass (allNodes : list ExecutionNode) (allNodeNames : list string)
    (st : list string * list ExecutionNode) : list string * list ExecutionNode :=
  foldl (expandNode allNodes allNodeNames) st st.2.

(** [for (let i = 0; i < allNodes.length; i++) ...]. *)
Definition expand (allNodes : list ExecutionNode) (allNodeNames : list string)
    (st : list string * list ExecutionNode) : list string * list ExecutionNode :=
  Nat.iter (length allNodes) (expandPass allNodes allNodeNames) st.

(** [includedNodeNames] and [includedNodes] when pruning starts. *)
Definition select (allNodes : list ExecutionNode) (rc : RunConfig)
    : list string * list ExecutionNode :=
  let allNodeNames := name <$> allNodes in
  let includedNodeNames := initialNames rc allNodeNames in
  let st := (includedNodeNames, includedOf allNodes includedNodeNames) in
  if includeDependencies rc then expand allNodes allNodeNames st else st.

(** [node.dependencies = utils.matchPatterns(node.dependencies, includedNodeNames)]. *)
Definition prune (includedNodeNames : list string) (node : ExecutionNode)
    : ExecutionNode :=
  {| name := name node;
     dependencies := matchPatterns (dependencies node) includedNodeNames;
     tasks := tasks node |}.

(** *** [Builder.build] *)

Definition build (g : CompiledGraph) (rc : RunConfig) : outcome ExecutionGraph :=
  let allNodes := translate g rc in
  let allNodeNames := name <$> allNodes in
  checkDependenciesExist allNodes allNodeNames ;;
  checkAllCircular allNodes (nodeNameMap allNodes) (S (length allNodes)) ;;
  let st := select allNodes rc in
  Done {| eg_projectConfig := projectConfig g;
          eg_runConfig := rc;
          eg_nodes := prune st.1 <$> st.2 |}.

End Builder.

Arguments m_name {Body} _.
Arguments m_dependencies {Body} _.
Arguments m_body {Body} _.
Arguments pres {Body} _.
Arguments posts {Body} _.
Arguments m_assertions {Body} _.
Arguments projectConfig {ProjectConfig Body} _.
Arguments materializations {ProjectConfig Body} _.
Arguments operations {ProjectConfig Body} _.
Arguments assertions {ProjectConfig Body} _.
Arguments eg_projectConfig {ProjectConfig} _.
Arguments eg_runConfig {ProjectConfig} _.
Arguments eg_nodes {ProjectConfig} _.
Arguments buildMaterialization {ProjectConfig Body} adapter_build pc rc materialization.
Arguments translate {ProjectConfig Body} adapter_build g rc.
Arguments build {ProjectConfig Body} adapter_build g rc.

(** ** The store model *)

(** An address of an array of strings in the heap. *)
Definition addr : Type := nat.

(** The objects created by [protos.ExecutionNode.create]: the constructor
    copies the properties it is given, so [dependencies] holds the very
    array of the entity, not a copy of it. *)
Record NodeObject : Type := {
  no_name : string;
  no_dependencies : addr;
  no_tasks : list ExecutionTask
}.

(** The part of the JavaScript heap that [build] reads and writes: the
    arrays of strings, by address, and the node objects [build] creates, by
    position of creation. *)
Record store : Type := {
  arrays : list (list string);
  objects : list NodeObject
}.

Record OperationObject : Type := {
  oo_name : string;
  oo_dependencies : addr;
  oo_statements : addr
}.

Record AssertionObject : Type := {
  ao_name : string;
  ao_dependencies : addr;
  ao_queries : addr
}.

Record RunConfigObject : Type := {
  ro_nodes : option addr;
  ro_includeDependencies : bool
}.

Definition read (h : list (list string)) (a : addr) : list string :=
  default [] (h !! a).

(** A new array: it gets the next free address. *)
Definition alloc (s : store) (v : list string) : addr * store :=
  (length (arrays s), {| arrays := arrays s ++ [v]; objects := objects s |}).

(** [array.push(x)]: the array at [a] is extended in place. *)
Definition push (a : addr) (s : store) (x : string) : store :=
  {| arrays := alter (λ v : list string, v ++ [x]) a (arrays s); objects := objects s |}.

(** [node.dependencies = array]: the field of the node object is
    reassigned; no array is written. *)
Definition setDependencies (i : nat) (a : addr) (s : store) : store :=
  {| arrays := arrays s;
     objects := alter (λ n, {| no_name := no_name n;
                               no_dependencies := a;
                               no_tasks := no_tasks n |}) i (objects s) |}.

(** The node that a node object stands for in a given heap. *)
Definition nodeValue (h : list (list string)) (n : NodeObject) : ExecutionNode :=
  {| name := no_name n;
     dependencies := read h (no_dependencies n);
     tasks := no_tasks n |}.

(** The node that the object at position [i] of the store stands for. *)
Definition view (s : store) (i : nat) : option ExecutionNode :=
  nodeValue (arrays s) <$> objects s !! i.

Definition reifyOperation (h : list (list string)) (o : OperationObject)
    : Operation :=
  {| o_name := oo_name o;
     o_dependencies := read h (oo_dependencies o);
     statements := read h (oo_statements o) |}.

Definition reifyAssertion (h : list (list string)) (a : AssertionObject)
    : Assertion :=
  {| a_name := ao_name a;
     a_dependencies := read h (ao_dependencies a);
     queries := read h (ao_queries a) |}.

Definition reifyRunConfig (h : list (list string)) (rc : RunConfigObject)
    : RunConfig :=
  {| rc_nodes := read h <$> ro_nodes rc;
     includeDependencies := ro_includeDependencies rc |}.

Section Store.

Variables ProjectConfig Body : Type.

Record MaterializationObject : Type := {
  mo_name : string;
  mo_dependencies : addr;
  mo_body : Body;
  mo_pres : addr;
  mo_posts : addr;
  mo_assertions : addr
}.

Record CompiledGraphObject : Type := {
  go_projectConfig : ProjectConfig;
  go_materializations : list MaterializationObject;
  go_operations : list OperationObject;
  go_assertions : list AssertionObject
}.

(** The execution graph that [build] returns: its [nodes] array holds node
    objects, given by their positions in the store. *)
Record ExecutionGraphObject : Type := {
  ego_projectConfig : ProjectConfig;
  ego_runConfig : RunConfigObject;
  ego_nodes : list nat
}.

Variable adapter_build :
  ProjectConfig → Materialization Body → RunConfig → list ExecutionTask.

Definition reifyMaterialization (h : list (list string))
    (m : MaterializationObject) : Materialization Body :=
  {| m_name := mo_name m;
     m_dependencies := read h (mo_dependencies m);
     m_body := mo_body m;
     pres := read h (mo_pres m);
     posts := read h (mo_posts m);
     m_assertions := read h (mo_assertions m) |}.

Definition reifyGraph (h : list (list string)) (g : CompiledGraphObject)
    : CompiledGraph ProjectConfig Body :=
  {| projectConfig := go_projectConfig g;
     materializations := reifyMaterialization h <$> go_materializations g;
     operations := reifyOperation h <$> go_operations g;
     assertions := reifyAssertion h <$> go_assertions g |}.

(** *** Translation, on objects *)

Definition buildMaterializationObject (h : list (list string))
    (pc : ProjectConfig) (rc : RunConfigObject) (m : MaterializationObject)
    : NodeObject :=
  {| no_name := mo_name m;
     no_dependencies := mo_dependencies m;
     no_tasks :=
       ((λ pre, {| type := None; statement := pre |}) <$> read h (mo_pres m))
       ++ adapter_build pc (reifyMaterialization h m) (reifyRunConfig h rc)
       ++ ((λ post, {| type := None; statement := post |})
             <$> read h (mo_posts m))
       ++ ((λ assertion, {| type := Some "assertion"; statement := assertion |})
             <$> read h (mo_assertions m)) |}.

Definition buildOperationObject (h : list (list string)) (o : OperationObject)
    : NodeObject :=
  {| no_name := oo_name o;
     no_dependencies := oo_dependencies o;
     no_tasks := (λ s, {| type := Some "statement"; statement := s |})
                   <$> read h (oo_statements o) |}.

Definition buildAssertionObject (h : list (list string)) (a : AssertionObject)
    : NodeObject :=
  {| no_name := ao_name a;
     no_dependencies := ao_dependencies a;
     no_tasks := (λ query, {| type := Some "assertion"; statement := query |})
                   <$> read h (ao_queries a) |}.

Definition translateObjects (h : list (list string)) (g : CompiledGraphObject)
    (rc : RunConfigObject) : list NodeObject :=
  (buildMaterializationObject h (go_projectConfig g) rc <$> go_materializations g)
  ++ (buildOperationObject h <$> go_operations g)
  ++ (buildAssertionObject h <$> go_assertions g).

(** *** Selection, on the store *)

(** [allNodes.filter(node => includedNodeNames.indexOf(node.name) >= 0)],
    as the positions of the nodes kept; [included] is the address of
    [includedNodeNames]. *)
Definition includedObjects (included : addr) (s : store) : list nat :=
  filter (λ i, nodeName (nodeValue (arrays s) <$> objects s) i
                 ∈ read (arrays s) included)
         (seq 0 (length (objects s))).

Definition matchingNodeNamesObject (allNodeNames : addr) (s : store) (i : nat)
    : list string :=
  match nodeValue (arrays s) <$> objects s !! i with
  | None => []
  | Some node =>
      match dependencies node with
      | [] => []
      | _ :: _ => matchPatterns (dependencies node) (read (arrays s) allNodeNames)
      end
  end.

Definition pushNewObject (included : addr) (s : store) (nodeName : string)
    : store :=
  if bool_decide (nodeName ∈ read (arrays s) included) then s
  else push included s nodeName.

Definition expandNodeObject (allNodeNames included : addr)
    (st : store * list nat) (i : nat) : store * list nat :=
  let s := foldl (pushNewObject included) st.1
                 (matchingNodeNamesObject allNodeNames st.1 i) in
  (s, includedObjects included s).

Definition expandPassObject (allNodeNames included : addr)
    (st : store * list nat) : store * list nat :=
  foldl (expandNodeObject allNodeNames included) st st.2.

Definition expandObject (allNodeNames included : addr)
    (st : store * list nat) : store * list nat :=
  Nat.iter (length (objects st.1)) (expandPassObject allNodeNames included) st.

(** The body of the pruning [forEach]: [matchPatterns] returns a new array,
    which becomes the [dependencies] of the node. *)
Definition pruneObject (included : addr) (s : store) (i : nat) : store :=
  match objects s !! i with
  | None => s
  | Some n =>
      let (a, s') :=
        alloc s (matchPatterns (read (arrays s) (no_dependencies n))
                               (read (arrays s) included)) in
      setDependencies i a s'
  end.

(** *** [Builder.build], on the store *)

(** The two checks read the nodes as they are in the store. *)
Definition validateObject (allNodeNames : addr) (s : store) : outcome unit :=
  let allNodes := nodeValue (arrays s) <$> objects s in
  checkDependenciesExist allNodes (read (arrays s) allNodeNames) ;;
  checkAllCircular allNodes (nodeNameMap allNodes) (S (length allNodes)).

(** The initial [includedNodeNames]: the array that [matchPatterns]
    returns, or the array [allNodeNames] itself. *)
Definition initialNamesObject (allNodeNames : addr) (rc : RunConfigObject)
    (s : store) : addr * store :=
  match ro_nodes rc with
  | None => (allNodeNames, s)
  | Some nodes =>
      match read (arrays s) nodes with
      | [] => (allNodeNames, s)
      | _ :: _ =>
          alloc s (matchPatterns (read (arrays s) nodes)
                                 (read (arrays s) allNodeNames))
      end
  end.

(** The address of [includedNodeNames], with the store and
    [includedNodes] when pruning starts. *)
Definition selectObject (allNodeNames : addr) (rc : RunConfigObject)
    (s : store) : addr * (store * list nat) :=
  let (included, s') := initialNamesObject allNodeNames rc s in
  let st := (s', includedObjects included s') in
  (included,
   if ro_includeDependencies rc
   then expandObject allNodeNames included st else st).

(** [h] is the heap when [build] is called; the result is the store when
    it returns, with the graph returned. *)
Definition buildObject (h : list (list string)) (g : CompiledGraphObject)
    (rc : RunConfigObject) : outcome (store * ExecutionGraphObject) :=
  let s0 := {| arrays := h; objects := translateObjects h g rc |} in
  let (allNodeNames, s1) := alloc s0 (no_name <$> objects s0) in
  validateObject allNodeNames s1 ;;
  let sel := selectObject allNodeNames rc s1 in
  Done (foldl (pruneObject sel.1) sel.2.1 sel.2.2,
        {| ego_projectConfig := go_projectConfig g;
           ego_runConfig := rc;
           ego_nodes := sel.2.2 |}).

(** The arrays that the input refers to are in the heap. *)
Definition validMaterialization (h : list (list string))
    (m : MaterializationObject) : Prop :=
  mo_dependencies m < length h ∧ mo_pres m < length h
  ∧ mo_posts m < length h ∧ mo_assertions m < length h.

Definition validOperation (h : list (list string)) (o : OperationObject) : Prop :=
  oo_dependencies o < length h ∧ oo_statements o < length h.

Definition validAssertion (h : list (list string)) (a : AssertionObject) : Prop :=
  ao_dependencies a < length h ∧ ao_queries a < length h.

Definition validInput (h : list (list string)) (g : CompiledGraphObject)
    (rc : RunConfigObject) : Prop :=
  Forall (validMaterialization h) (go_materializations g)
  ∧ Forall (validOperation h) (go_operations g)
  ∧ Forall (validAssertion h) (go_assertions g)
  ∧ ∀ a, ro_nodes rc = Some a → a < length h.

(** The value of a returned graph, read from the store. *)
Definition graphValue (r : store * ExecutionGraphObject)
    : ExecutionGraph ProjectConfig :=
  {| eg_projectConfig := ego_projectConfig r.2;
     eg_runConfig := reifyRunConfig (arrays r.1) (ego_runConfig r.2);
     eg_nodes := omap (view r.1) (ego_nodes r.2) |}.

Definition outcomeValue (o : outcome (store * ExecutionGraphObject))
    : outcome (ExecutionGraph ProjectConfig) :=
  match o with
  | Done r => Done (graphValue r)
  | Throw e => Throw e
  | OutOfFuel => OutOfFuel
  end.

End Store.

Arguments mo_name {Body} _.
Arguments mo_dependencies {Body} _.
Arguments mo_body {Body} _.
Arguments mo_pres {Body} _.
Arguments mo_posts {Body} _.
Arguments mo_assertions {Body} _.
Arguments go_projectConfig {ProjectConfig Body} _.
Arguments go_materializations {ProjectConfig Body} _.
Arguments go_operations {ProjectConfig Body} _.
Arguments go_assertions {ProjectConfig Body} _.
Arguments ego_projectConfig {ProjectConfig} _.
Arguments ego_runConfig {ProjectConfig} _.
Arguments ego_nodes {ProjectConfig} _.
Arguments reifyMaterialization {Body} h m.
Arguments validMaterialization {Body} h m.
Arguments validInput {ProjectConfig Body} h g rc.
Arguments reifyGraph {ProjectConfig Body} h g.
Arguments translateObjects {ProjectConfig Body} adapter_build h g rc.
Arguments buildObject {ProjectConfig Body} adapter_build h g rc.
Arguments graphValue {ProjectConfig} r.
Arguments outcomeValue {ProjectConfig} o.

(** ** A sample project *)

Definition sampleAdapter (pc : unit) (m : Materialization unit) (rc : RunConfig)
    : list ExecutionTask :=
  [{| type := Some "statement"; statement := "create table " +:+ m_name m |}].

Definition mat (n : string) (deps : list string) : Materialization unit :=
  {| m_name := n; m_dependencies := deps; m_body := tt;
     pres := []; posts := []; m_assertions := [] |}.

Definition graphOf (ms : list (Materialization unit)) (os : list Operation)
    (asserts : list Assertion) : CompiledGraph unit unit :=
  {| projectConfig := tt; materializations := ms; operations := os;
     assertions := asserts |}.

Definition runOf (ns : list string) (deps : bool) : RunConfig :=
  {| rc_nodes := Some ns; includeDependencies := deps |}.

(** [A] depends on [B]; [C] stands alone. *)
Definition sampleGraph : CompiledGraph unit unit :=
  graphOf [mat "A" ["B"]; mat "B" []; mat "C" []] [] [].

(** [A], [B] and [C] depend on each other in a circle. *)
Definition circularGraph : CompiledGraph unit unit :=
  graphOf [mat "A" ["B"]; mat "B" ["C"]; mat "C" ["A"]] [] [].

(** [A] depends on [D], which is not defined. *)
Definition danglingGraph : CompiledGraph unit unit :=
  graphOf [mat "A" ["D"]] [] [].

(** A materialization and an assertion are both named [A]; the
    materialization depends on the name [A]. *)
Definition collidingGraph : CompiledGraph unit unit :=
  graphOf [mat "A" ["A"]] []
          [{| a_name := "A"; a_dependencies := []; queries := ["select 1"] |}].

Definition createTable (n : string) : ExecutionTask :=
  {| type := Some "statement"; statement := "create table " +:+ n |}.

(** The same project in a heap: the arrays at addresses 0 to 3 are the
    dependencies of [A], an empty array shared by all the fields that are
    empty, the dependencies of [C] and [runConfig.nodes]. *)
Definition sampleHeap : list (list string) := [["B"]; []; []; ["A"]].

Definition matObject (n : string) (deps : addr) : MaterializationObject unit :=
  {| mo_name := n; mo_dependencies := deps; mo_body := tt;
     mo_pres := 1; mo_posts := 1; mo_assertions := 1 |}.

Definition sampleGraphObject : CompiledGraphObject unit unit :=
  {| go_projectConfig := tt;
     go_materializations := [matObject "A" 0; matObject "B" 1; matObject "C" 2];
     go_operations := [];
     go_assertions := [] |}.

Definition sampleRunObject : RunConfigObject :=
  {| ro_nodes := Some 3; ro_includeDependencies := true |}.

(** The same project again, laid out otherwise in another heap. *)
Definition otherHeap : list (list string) := [[]; ["A"]; ["B"]].

Definition otherGraphObject : CompiledGraphObject unit unit :=
  {| go_projectConfig := tt;
     go_materializations :=
       [ {| mo_name := "A"; mo_dependencies := 2; mo_body := tt;
            mo_pres := 0; mo_posts := 0; mo_assertions := 0 |};
         {| mo_name := "B"; mo_dependencies := 0; mo_body := tt;
            mo_pres := 0; mo_posts := 0; mo_assertions := 0 |};
         {| mo_name := "C"; mo_dependencies := 0; mo_body := tt;
            mo_pres := 0; mo_posts := 0; mo_assertions := 0 |} ];
     go_operations := [];
     go_assertions := [] |}.

Definition otherRunObject : RunConfigObject :=
  {| ro_nodes := Some 1; ro_includeDependencies := true |}.

(** What [build] returns for [sampleGraph] when [A] is asked for with its
    dependencies. *)
Definition sampleExpanded : ExecutionGraph unit :=
  {| eg_projectConfig := tt;
     eg_runConfig := runOf ["A"] true;
     eg_nodes :=
       [ {| name := "A"; dependencies := ["B"]; tasks := [createTable "A"] |};
         {| name := "B"; dependencies := []; tasks := [createTable "B"] |} ] |}.

(** An adapter that gives no task. *)
Definition silentAdapter (pc : unit) (m : Materialization unit) (rc : RunConfig)
    : list ExecutionTask :=
  [].

(** A materialization with a pre, a post and an assertion of its own, and
    an operation of one statement. *)
Definition stepsGraph : CompiledGraph unit unit :=
  graphOf [ {| m_name := "A"; m_dependencies := []; m_body := tt;
               pres := ["set x"]; posts := ["drop y"];
               m_assertions := ["select 1"] |} ]
          [ {| o_name := "O"; o_dependencies := []; statements := ["run"] |} ]
          [].

(** A materialization and an assertion are both named [A]; the assertion
    depends on the name [A], which designates the assertion itself. *)
Definition shadowingCycleGraph : CompiledGraph unit unit :=
  graphOf [mat "A" []] []
          [{| a_name := "A"; a_dependencies := ["A"]; queries := [] |}].

(** [A] declares [C], [B] and [C] again. *)
Definition repeatedGraph : CompiledGraph unit unit :=
  graphOf [mat "A" ["C"; "B"; "C"]; mat "B" []; mat "C" []] [] [].

(** ** Notions used in the statements *)

(** Every dependency names a node. *)
Definition dependenciesExist (allNodes : list ExecutionNode) : Prop :=
  ∀ node d, node ∈ allNodes → d ∈ dependencies node → d ∈ name <$> allNodes.

(** The node at position [j] is the last node of [allNodes] named [d]. *)
Definition lastNamed (allNodes : list ExecutionNode) (d : string) (j : nat)
    : Prop :=
  (∃ n, allNodes !! j = Some n ∧ name n = d)
  ∧ ∀ k n', j < k → allNodes !! k = Some n' → name n' ≠ d.

(** The dependency graph over the nodes: the node at [i] declares a
    dependency whose name designates the node at [j]. *)
Definition dependsOn (allNodes : list ExecutionNode) (i j : nat) : Prop :=
  ∃ n d, allNodes !! i = Some n ∧ d ∈ dependencies n ∧ lastNamed allNodes d j.

Definition hasCycle (allNodes : list ExecutionNode) : Prop :=
  ∃ i, tc (dependsOn allNodes) i i.

(** A sequence of nodes, each depending on the next. *)
Fixpoint dependencyPath (allNodes : list ExecutionNode) (l : list nat) : Prop :=
  match l with
  | [] => True
  | i :: l' =>
      match l' with
      | [] => i < length allNodes
      | j :: _ => dependsOn allNodes i j ∧ dependencyPath allNodes l'
      end
  end.


(** Some node named [x] declares a dependency that the matcher resolves,
    among the names of all nodes, to [y]. *)
Definition selects (allNodes : list ExecutionNode) (x y : string) : Prop :=
  ∃ node, node ∈ allNodes ∧ name node = x
          ∧ y ∈ matchPatterns (dependencies node) (name <$> allNodes).

(** A set of names that contains the dependencies of its members. *)
Definition dependencyClosed (allNodes : list ExecutionNode) (names : list string)
    : Prop :=
  ∀ x y, x ∈ names → selects allNodes x y → y ∈ names.

(** The number of distinct names of a list. *)
Definition distinct (names : list string) : nat := length (remove_dups names).

(** The two kinds of task of the specification: a task is tagged
    ["assertion"] or ["statement"]. *)
Definition assertionTask (s : string) (t : ExecutionTask) : Prop :=
  type t = Some "assertion" ∧ statement t = s.

Definition statementTask (s : string) (t : ExecutionTask) : Prop :=
  type t = Some "statement" ∧ statement t = s.

(** A task object without a [type] field: it is of neither kind. *)
Definition untypedTask (s : string) (t : ExecutionTask) : Prop :=
  type t = None ∧ statement t = s.

(** How many nodes of a list bear a given name. *)
Definition named (x : string) (l : list ExecutionNode) : nat :=
  length (filter (λ node, name node = x) l).

(** ** Notions used in the proofs *)

(** The state of the expansion loop is consistent: [includedNodes] holds
    the nodes whose names are in [includedNodeNames]. *)
Definition consistent (allNodes : list ExecutionNode)
    (st : list string * list ExecutionNode) : Prop :=
  st.2 = includedOf allNodes st.1.

(** The positions of the nodes whose names are in [names]. *)
Definition idsOf (allNodes : list ExecutionNode) (names : list string)
    : list nat :=
  filter (λ i, nodeName allNodes i ∈ names) (seq 0 (length allNodes)).

(** During selection, the store holds the heap [h] of the call, then the
    array [allNodeNames], then the array [includedNodeNames] when it is not
    the same array; [included] is the address of [includedNodeNames] and
    [names] its contents. *)
Definition agrees (h : list (list string)) (objs : list NodeObject)
    (included : addr) (s : store) (names : list string) : Prop :=
  objects s = objs
  ∧ ((included = length h ∧ names = no_name <$> objs
      ∧ arrays s = h ++ [no_name <$> objs])
     ∨ (included = S (length h)
        ∧ arrays s = h ++ [no_name <$> objs; names])).

(** The [dependencies] of every node object is an array of the store. *)
Definition validObjects (s : store) : Prop :=
  ∀ j o, objects s !! j = Some o → no_dependencies o < length (arrays s).

(** The states of the expansion loop on the store and on values
    correspond. *)
Definition related (h : list (list string)) (objs : list NodeObject)
    (included : addr) (st : store * list nat)
    (sp : list string * list ExecutionNode) : Prop :=
  agrees h objs included st.1 sp.1
  ∧ st.2 = idsOf (nodeValue h <$> objs) sp.1
  ∧ sp.2 = includedOf (nodeValue h <$> objs) sp.1.

(** The graph that [build] returns once validation has passed. *)
Definition selected {ProjectConfig Body : Type}
    (adapter_build :
       ProjectConfig → Materialization Body → RunConfig → list ExecutionTask)
    (g : CompiledGraph ProjectConfig Body) (rc : RunConfig)
    : ExecutionGraph ProjectConfig :=
  let st := select (translate adapter_build g rc) rc in
  {| eg_projectConfig := projectConfig g;
     eg_runConfig := rc;
     eg_nodes := prune st.1 <$> st.2 |}.

(** A node without its tasks: what validation and selection read. *)
Definition skeleton (n : ExecutionNode) : ExecutionNode :=
  {| name := name n; dependencies := dependencies n; tasks := [] |}.

(** The two checks of [build], one after the other. *)
Definition validate (allNodes : list ExecutionNode) : outcome unit :=
  checkDependenciesExist allNodes (name <$> allNodes) ;;
  checkAllCircular allNodes (nodeNameMap allNodes) (S (length allNodes)).

(** A state of the expansion loop, its nodes without their tasks. *)
Definition bare (st : list string * list ExecutionNode)
    : list string * list ExecutionNode :=
  (st.1, skeleton <$> st.2).
(** * Properties *)

(** ** The pattern matcher *)

Lemma matchPattern_star (rest value : string) :
  matchPattern (String "*"%char rest) value
  = matchPattern rest value ||
    match value with
    | EmptyString => false
    | String _ value' => matchPattern (String "*"%char rest) value'
    end.
Proof. by destruct value. Qed.

Lemma matchPattern_refl (s : string) : matchPattern s s = true.
Proof.
  induction s as [|c s IH]; [done|].
  destruct (Ascii.eqb c "*"%char) eqn:Hc.
  - apply Ascii.eqb_eq in Hc as ->.
    rewrite matchPattern_star, (matchPattern_star s s), IH.
    by rewrite orb_true_r.
  - simpl. by rewrite Hc, Ascii.eqb_refl, IH.
Qed.

Lemma elem_of_matchPatterns (patterns values : list string) (x : string) :
  x ∈ matchPatterns patterns values
  ↔ x ∈ values ∧ ∃ p, p ∈ patterns ∧ matchPattern p x = true.
Proof.
  unfold matchPatterns.
  rewrite elem_of_remove_dups, list_elem_of_filter, Exists_exists.
  split.
  - intros [(p & Hp & Hm) Hx]. split; [done|]. exists p. split; [done|].
    by apply Is_true_true.
  - intros [Hx (p & Hp & Hm)]. split; [|done]. exists p. split; [done|].
    by apply Is_true_true.
Qed.

Lemma matchPatterns_subseteq (patterns values : list string) :
  matchPatterns patterns values ⊆ values.
Proof. intros x Hx. by apply elem_of_matchPatterns in Hx as [? _]. Qed.

Lemma matchPatterns_exact (patterns values : list string) (x : string) :
  x ∈ patterns → x ∈ values → x ∈ matchPatterns patterns values.
Proof.
  intros Hp Hv. apply elem_of_matchPatterns. split; [done|].
  exists x. split; [done|]. apply matchPattern_refl.
Qed.

Lemma matchPatterns_nil (values : list string) : matchPatterns [] values = [].
Proof.
  assert (H : ∀ x, x ∉ matchPatterns [] values).
  { intros x Hx. apply elem_of_matchPatterns in Hx as [_ (p & Hp & _)].
    by apply not_elem_of_nil in Hp. }
  destruct (matchPatterns [] values) as [|x l]; [done|].
  exfalso. apply (H x). by left.
Qed.

(** A selector without [*] matches only itself. *)
Definition wildcardFree (s : string) : Prop :=
  "*"%char ∉ String.list_ascii_of_string s.

Lemma matchPattern_wildcardFree (p v : string) :
  wildcardFree p → matchPattern p v = true → p = v.
Proof.
  unfold wildcardFree. revert v.
  induction p as [|c p IH]; intros v Hw Hm.
  - by destruct v.
  - simpl in Hw, Hm. apply not_elem_of_cons in Hw as [Hc Hw].
    destruct (Ascii.eqb c "*"%char) eqn:Heq.
    { apply Ascii.eqb_eq in Heq. congruence. }
    destruct v as [|d v]; [done|].
    apply andb_true_iff in Hm as [Hcd Hm].
    apply Ascii.eqb_eq in Hcd. f_equal; [done|]. by apply IH.
Qed.

(** ** [forEach] *)

Lemma forEach_Done {A : Type} (f : A → outcome unit) (l : list A) :
  forEach f l = Done tt ↔ ∀ x, x ∈ l → f x = Done tt.
Proof.
  induction l as [|x l IH]; simpl.
  - split; [|done]. intros _ x Hx. by apply not_elem_of_nil in Hx.
  - split.
    + intros H y Hy. destruct (f x) as [[]| |] eqn:Hfx; try done.
      apply elem_of_cons in Hy as [->|Hy]; [done|]. by apply IH.
    + intros H. rewrite (H x) by (by left). simpl. apply IH.
      intros y Hy. apply H. by right.
Qed.

(** The exception that [forEach] raises is the one of the first callback
    that raises. *)
Lemma forEach_Throw {A : Type} (f : A → outcome unit) (l : list A) e :
  forEach f l = Throw e
  ↔ ∃ l1 x l2, l = l1 ++ x :: l2 ∧ (∀ y, y ∈ l1 → f y = Done tt)
               ∧ f x = Throw e.
Proof.
  induction l as [|x l IH]; simpl.
  - split; [done|]. intros (l1 & y & l2 & H & _). by destruct l1.
  - split.
    + intros H. destruct (f x) as [[]| |] eqn:Hfx; simpl in H; try done.
      * apply IH in H as (l1 & y & l2 & -> & Hl1 & Hy).
        exists (x :: l1), y, l2. split; [done|]. split; [|done].
        intros z Hz. apply elem_of_cons in Hz as [->|Hz]; auto.
      * exists [], x, l. split; [done|]. split; [|congruence].
        intros y Hy. by apply not_elem_of_nil in Hy.
    + intros (l1 & y & l2 & Heq & Hl1 & Hy).
      destruct l1 as [|z l1]; simplify_eq/=.
      * by rewrite Hy.
      * rewrite (Hl1 z) by (by left). simpl. apply IH.
        exists l1, y, l2. split; [done|]. split; [|done].
        intros w Hw. apply Hl1. by right.
Qed.

Lemma forEach_OutOfFuel {A : Type} (f : A → outcome unit) (l : list A) :
  forEach f l = OutOfFuel → ∃ x, x ∈ l ∧ f x = OutOfFuel.
Proof.
  induction l as [|x l IH]; simpl; [done|].
  destruct (f x) as [[]| |] eqn:Hfx; simpl; try done.
  - intros H. destruct (IH H) as (y & Hy & Hfy). exists y. split; [by right|done].
  - intros _. exists x. split; [by left|done].
Qed.

Lemma forEach_ext {A : Type} (f g : A → outcome unit) (l : list A) :
  (∀ x, x ∈ l → f x = g x) → forEach f l = forEach g l.
Proof.
  induction l as [|x l IH]; intros H; simpl; [done|].
  rewrite (H x) by (by left). rewrite IH; [done|].
  intros y Hy. apply H. by right.
Qed.


(** ** The name map *)

Lemma fillNameMap_snoc (m : gmap string nat) (i : nat) (l : list ExecutionNode)
    (x : ExecutionNode) :
  fillNameMap m i (l ++ [x]) = <[name x := i + length l]> (fillNameMap m i l).
Proof.
  revert m i. induction l as [|y l IH]; intros m i; simpl.
  - by rewrite Nat.add_0_r.
  - rewrite IH. f_equal. lia.
Qed.

Lemma nodeNameMap_snoc (l : list ExecutionNode) (x : ExecutionNode) :
  nodeNameMap (l ++ [x]) = <[name x := length l]> (nodeNameMap l).
Proof. unfold nodeNameMap. by rewrite fillNameMap_snoc. Qed.

Lemma lastNamed_lt (allNodes : list ExecutionNode) d j :
  lastNamed allNodes d j → j < length allNodes.
Proof. intros [(n & Hn & _) _]. by apply lookup_lt_Some in Hn. Qed.

Lemma lastNamed_snoc_eq (l : list ExecutionNode) (x : ExecutionNode) j :
  lastNamed (l ++ [x]) (name x) j ↔ j = length l.
Proof.
  split.
  - intros [(n & Hn & Hname) Hlast].
    destruct (decide (j = length l)) as [|Hne]; [done|].
    apply lookup_lt_Some in Hn as Hlt. rewrite length_app in Hlt. simpl in Hlt.
    exfalso. apply (Hlast (length l) x); [lia| |done].
    by rewrite list_lookup_middle.
  - intros ->. split.
    + exists x. split; [|done]. by rewrite list_lookup_middle.
    + intros k n' Hk Hn'. apply lookup_lt_Some in Hn'.
      rewrite length_app in Hn'. simpl in Hn'. lia.
Qed.

Lemma lastNamed_snoc_ne (l : list ExecutionNode) (x : ExecutionNode) d j :
  name x ≠ d → lastNamed (l ++ [x]) d j ↔ lastNamed l d j.
Proof.
  intros Hne. split.
  - intros [(n & Hn & Hname) Hlast].
    assert (j < length l) as Hlt.
    { apply lookup_lt_Some in Hn as Hlt. rewrite length_app in Hlt.
      simpl in Hlt. destruct (decide (j = length l)) as [->|]; [|lia].
      rewrite list_lookup_middle in Hn by done. congruence. }
    split.
    + exists n. split; [|done]. by rewrite lookup_app_l in Hn.
    + intros k n' Hk Hn'. apply (Hlast k n'); [done|].
      rewrite lookup_app_l; [done|]. by apply lookup_lt_Some in Hn'.
  - intros [(n & Hn & Hname) Hlast]. split.
    + exists n. split; [|done]. rewrite lookup_app_l; [done|].
      by apply lookup_lt_Some in Hn.
    + intros k n' Hk Hn'.
      destruct (decide (k < length l)) as [Hlt|Hge].
      * rewrite lookup_app_l in Hn' by done. by apply (Hlast k n').
      * apply lookup_lt_Some in Hn' as Hlt. rewrite length_app in Hlt.
        simpl in Hlt. assert (k = length l) as -> by lia.
        rewrite list_lookup_middle in Hn' by done. congruence.
Qed.

(** The map built by [build] sends a name to the last node of that name. *)
Lemma nodeNameMap_lookup (allNodes : list ExecutionNode) d j :
  nodeNameMap allNodes !! d = Some j ↔ lastNamed allNodes d j.
Proof.
  induction allNodes as [|x l IH] using rev_ind.
  - unfold nodeNameMap. simpl. rewrite lookup_empty. split; [done|].
    intros [(n & Hn & _) _]. done.
  - rewrite nodeNameMap_snoc.
    destruct (decide (name x = d)) as [Heq|Hne].
    + subst d. rewrite lookup_insert_eq, lastNamed_snoc_eq.
      split; [by intros [= <-]|by intros ->].
    + rewrite lookup_insert_ne by done. by rewrite lastNamed_snoc_ne.
Qed.

Lemma lastNamed_exists (allNodes : list ExecutionNode) d :
  d ∈ name <$> allNodes → ∃ j, lastNamed allNodes d j.
Proof.
  induction allNodes as [|x l IH] using rev_ind.
  - intros H. by apply not_elem_of_nil in H.
  - intros H. destruct (decide (name x = d)) as [<-|Hne].
    + exists (length l). by apply lastNamed_snoc_eq.
    + rewrite fmap_app in H. apply elem_of_app in H as [H|H].
      * destruct (IH H) as [j Hj]. exists j. by apply lastNamed_snoc_ne.
      * apply list_elem_of_singleton in H. congruence.
Qed.

Lemma lastNamed_elem_of (allNodes : list ExecutionNode) d j :
  lastNamed allNodes d j → d ∈ name <$> allNodes.
Proof.
  intros [(n & Hn & <-) _]. apply list_elem_of_fmap_2.
  by eapply list_elem_of_lookup_2.
Qed.

Lemma lastNamed_inj (allNodes : list ExecutionNode) d j k :
  lastNamed allNodes d j → lastNamed allNodes d k → j = k.
Proof. rewrite <-!nodeNameMap_lookup. congruence. Qed.


(** ** The existence check *)

Lemma checkDependenciesExist_Done (allNodes : list ExecutionNode) :
  checkDependenciesExist allNodes (name <$> allNodes) = Done tt
  ↔ dependenciesExist allNodes.
Proof.
  unfold checkDependenciesExist, dependenciesExist.
  rewrite forEach_Done. split.
  - intros H node d Hnode Hd. specialize (H node Hnode).
    rewrite forEach_Done in H. specialize (H d Hd).
    case_bool_decide; done.
  - intros H node Hnode. apply forEach_Done. intros d Hd.
    rewrite bool_decide_eq_true_2; [done|]. by eapply H.
Qed.

Lemma checkDependenciesExist_Throw (allNodes : list ExecutionNode) e :
  checkDependenciesExist allNodes (name <$> allNodes) = Throw e →
  ∃ node d, e = MissingDependency (name node) d ∧ node ∈ allNodes
            ∧ d ∈ dependencies node ∧ d ∉ name <$> allNodes.
Proof.
  unfold checkDependenciesExist. intros H.
  apply forEach_Throw in H as (l1 & node & l2 & Hl & _ & H).
  apply forEach_Throw in H as (d1 & d & d2 & Hd & _ & H).
  assert (node ∈ allNodes) as Hnode.
  { rewrite Hl. apply elem_of_app. right. by left. }
  assert (d ∈ dependencies node) as Hdep.
  { rewrite Hd. apply elem_of_app. right. by left. }
  case_bool_decide as Hin; [done|].
  exists node, d. by simplify_eq.
Qed.

Lemma checkDependenciesExist_fuel (allNodes : list ExecutionNode) names :
  checkDependenciesExist allNodes names ≠ OutOfFuel.
Proof.
  unfold checkDependenciesExist. intros H.
  apply forEach_OutOfFuel in H as (node & _ & H).
  apply forEach_OutOfFuel in H as (d & _ & H).
  by case_bool_decide.
Qed.

(** ** Dependency paths *)

Section Paths.

Context (allNodes : list ExecutionNode).

Lemma dependsOn_lt_l i j : dependsOn allNodes i j → i < length allNodes.
Proof. intros (n & d & Hn & _). by apply lookup_lt_Some in Hn. Qed.

Lemma dependsOn_lt_r i j : dependsOn allNodes i j → j < length allNodes.
Proof. intros (n & d & _ & _ & Hj). by eapply lastNamed_lt. Qed.

Lemma dependencyPath_cons i j l :
  dependencyPath allNodes (i :: j :: l)
  ↔ dependsOn allNodes i j ∧ dependencyPath allNodes (j :: l).
Proof. done. Qed.

Lemma dependencyPath_snoc l i j :
  dependencyPath allNodes (l ++ [i]) → dependsOn allNodes i j →
  dependencyPath allNodes ((l ++ [i]) ++ [j]).
Proof.
  intros Hp Hd. induction l as [|a l IH].
  - simpl. split; [done|]. by eapply dependsOn_lt_r.
  - destruct l as [|b l].
    + simpl in *. destruct Hp as [Hab _]. split; [done|]. split; [done|].
      by eapply dependsOn_lt_r.
    + change (dependencyPath allNodes (a :: b :: ((l ++ [i]) ++ [j]))).
      change (dependencyPath allNodes (a :: b :: (l ++ [i]))) in Hp.
      apply dependencyPath_cons in Hp as [Hab Hp].
      apply dependencyPath_cons. split; [done|]. by apply IH.
Qed.

Lemma dependencyPath_last l i :
  dependencyPath allNodes (l ++ [i]) → i < length allNodes.
Proof.
  induction l as [|a l IH]; [done|].
  destruct l as [|b l].
  - simpl. intros [H _]. by eapply dependsOn_lt_r.
  - change (dependencyPath allNodes (a :: b :: (l ++ [i])) → i < length allNodes).
    rewrite dependencyPath_cons. intros [_ H]. by apply IH.
Qed.

Lemma dependencyPath_app_r l1 l2 :
  dependencyPath allNodes (l1 ++ l2) → dependencyPath allNodes l2.
Proof.
  induction l1 as [|a l1 IH]; [done|].
  destruct l2 as [|c l2]; [done|].
  destruct l1 as [|b l1].
  - simpl. by intros [_ H].
  - change (dependencyPath allNodes (a :: b :: (l1 ++ c :: l2))
            → dependencyPath allNodes (c :: l2)).
    rewrite dependencyPath_cons. intros [_ H]. by apply IH.
Qed.

Lemma dependencyPath_tc a l b :
  dependencyPath allNodes (a :: l ++ [b]) → tc (dependsOn allNodes) a b.
Proof.
  revert a. induction l as [|c l IH]; intros a.
  - simpl. intros [H _]. by apply tc_once.
  - change (dependencyPath allNodes (a :: c :: (l ++ [b]))
            → tc (dependsOn allNodes) a b).
    rewrite dependencyPath_cons. intros [Hac H].
    eapply tc_l; [done|]. by apply IH.
Qed.

(** A path that comes back to one of its nodes closes a cycle. *)
Lemma dependencyPath_cycle chain r :
  r ∈ chain → dependencyPath allNodes (chain ++ [r]) → hasCycle allNodes.
Proof.
  intros Hr Hp. apply list_elem_of_split in Hr as (l1 & l2 & ->).
  rewrite <-app_assoc in Hp. apply dependencyPath_app_r in Hp.
  exists r. by eapply dependencyPath_tc.
Qed.


End Paths.

(** ** The cycle check *)

Lemma forEach_fuel_mono {A : Type} (f g : A → outcome unit) (l : list A) :
  (∀ x, x ∈ l → f x ≠ OutOfFuel → g x = f x) →
  forEach f l ≠ OutOfFuel → forEach g l = forEach f l.
Proof.
  induction l as [|x l IH]; intros H Hf; simpl in *; [done|].
  destruct (f x) as [[]| |] eqn:Hfx; simpl in *.
  - rewrite (H x), Hfx by (by left || congruence). simpl.
    apply IH; [|done]. intros y Hy. apply H. by right.
  - rewrite (H x), Hfx by (by left || congruence). done.
  - done.
Qed.

Lemma NoDup_bounded_length (l : list nat) (n : nat) :
  NoDup l → (∀ x, x ∈ l → x < n) → length l ≤ n.
Proof.
  intros Hnd Hlt. trans (length (seq 0 n)); [|by rewrite length_seq].
  apply submseteq_length, NoDup_submseteq; [done|].
  intros x Hx. apply elem_of_seq. specialize (Hlt x Hx). lia.
Qed.

Section CheckCircularProperties.

Context (allNodes : list ExecutionNode).

Local Abbreviation check := (checkCircular allNodes (nodeNameMap allNodes)).

(** More fuel does not change an answer. *)
Lemma checkCircular_fuel_mono fuel fuel' node dependents :
  fuel ≤ fuel' → check fuel node dependents ≠ OutOfFuel →
  check fuel' node dependents = check fuel node dependents.
Proof.
  revert fuel' node dependents.
  induction fuel as [|fuel IH]; intros fuel' node dependents Hle Hf; [done|].
  destruct fuel' as [|fuel']; [lia|]. simpl in *.
  case_bool_decide; [done|].
  destruct (allNodes !! node) as [n|]; [|done].
  apply forEach_fuel_mono; [|done].
  intros d _ Hd. destruct (nodeNameMap allNodes !! d) as [j|]; [|done].
  apply IH; [lia|done].
Qed.

(** The chain of the nodes being visited has no repetition, so it is no
    longer than [allNodes]: a budget of one call more than the nodes left
    is never used up. *)
Lemma checkCircular_fuel fuel node dependents :
  NoDup dependents → (∀ x, x ∈ dependents → x < length allNodes) →
  length allNodes < fuel + length dependents →
  check fuel node dependents ≠ OutOfFuel.
Proof.
  revert node dependents.
  induction fuel as [|fuel IH]; intros node dependents Hnd Hlt Hfuel.
  - pose proof (NoDup_bounded_length _ _ Hnd Hlt). simpl in Hfuel. lia.
  - simpl. case_bool_decide as Hin; [done|].
    destruct (allNodes !! node) as [n|] eqn:Hn; [|done].
    intros H. apply forEach_OutOfFuel in H as (d & _ & H).
    destruct (nodeNameMap allNodes !! d) as [j|]; [|done].
    revert H. apply IH.
    + apply NoDup_app. split; [done|]. split; [|apply NoDup_singleton].
      intros x Hx Hx'. apply list_elem_of_singleton in Hx'. by subst.
    + intros x Hx. apply elem_of_app in Hx as [Hx|Hx]; [by apply Hlt|].
      apply list_elem_of_singleton in Hx as ->. by eapply lookup_lt_Some.
    + rewrite length_app. simpl. lia.
Qed.

(** What is thrown is a path of the dependency graph that extends the
    chain received and comes back to one of its nodes. *)
Lemma checkCircular_Throw fuel node dependents e :
  dependenciesExist allNodes →
  dependencyPath allNodes (dependents ++ [node]) →
  check fuel node dependents = Throw e →
  ∃ chain r, e = CircularDependency (nodeName allNodes <$> chain)
                                    (nodeName allNodes r)
             ∧ dependents `prefix_of` chain ∧ r ∈ chain
             ∧ dependencyPath allNodes (chain ++ [r]).
Proof.
  intros Hex. revert node dependents.
  induction fuel as [|fuel IH]; intros node dependents Hp H; [done|].
  simpl in H. case_bool_decide as Hin.
  - exists dependents, node. by simplify_eq.
  - pose proof (dependencyPath_last _ _ _ Hp) as Hlt.
    apply lookup_lt_is_Some_2 in Hlt as [n Hn]. rewrite Hn in H.
    apply forEach_Throw in H as (d1 & d & d2 & Hd & _ & H).
    assert (d ∈ dependencies n) as Hdn.
    { rewrite Hd. apply elem_of_app. right. by left. }
    assert (d ∈ name <$> allNodes) as Hdname.
    { eapply Hex; [|done]. by eapply list_elem_of_lookup_2. }
    apply lastNamed_exists in Hdname as [j Hj].
    rewrite (proj2 (nodeNameMap_lookup _ _ _) Hj) in H.
    apply IH in H as (chain & r & -> & Hpre & Hr & Hchain).
    + exists chain, r. split; [done|]. split; [|done].
      etrans; [|done]. by apply prefix_app_r.
    + apply dependencyPath_snoc; [done|]. by exists n, d.
Qed.

(** A check that returns has met none of the nodes of the chain. *)
Lemma checkCircular_Done fuel node dependents :
  check fuel node dependents = Done tt →
  ∀ j, tc (dependsOn allNodes) node j → j ∉ dependents ++ [node].
Proof.
  revert node dependents.
  induction fuel as [|fuel IH]; intros node dependents H; [done|].
  simpl in H. case_bool_decide as Hin; [done|].
  destruct (allNodes !! node) as [n|] eqn:Hn; [|done].
  rewrite forEach_Done in H.
  assert (∀ k, dependsOn allNodes node k →
               check fuel k (dependents ++ [node]) = Done tt) as Hstep.
  { intros k (n' & d & Hn' & Hd & Hk). simplify_eq.
    specialize (H d Hd).
    by rewrite (proj2 (nodeNameMap_lookup _ _ _) Hk) in H. }
  assert (∀ k, check fuel k (dependents ++ [node]) = Done tt →
               k ∉ dependents ++ [node]) as Hfresh.
  { intros k Hk. destruct fuel as [|fuel']; [done|]. simpl in Hk.
    by case_bool_decide. }
  intros j Hj.
  inversion Hj as [? ? Hnj|? k ? Hnk Hkj]; subst.
  - apply Hfresh. by apply Hstep.
  - specialize (IH _ _ (Hstep k Hnk) j Hkj).
    intros Hbad. apply IH. apply elem_of_app. by left.
Qed.

End CheckCircularProperties.


Section CheckAllCircular.

Context (allNodes : list ExecutionNode).

Local Abbreviation checkAll :=
  (checkAllCircular allNodes (nodeNameMap allNodes)).

Lemma checkAllCircular_fuel fuel :
  length allNodes < fuel → checkAll fuel ≠ OutOfFuel.
Proof.
  intros Hfuel H. apply forEach_OutOfFuel in H as (i & _ & H).
  revert H. apply checkCircular_fuel.
  - apply NoDup_nil_2.
  - intros x Hx. by apply not_elem_of_nil in Hx.
  - simpl. lia.
Qed.

Lemma checkAllCircular_Done fuel :
  checkAll fuel = Done tt → ¬ hasCycle allNodes.
Proof.
  unfold checkAllCircular. rewrite forEach_Done. intros H [i Hi].
  assert (i < length allNodes) as Hlt.
  { inversion Hi; subst; by eapply dependsOn_lt_l. }
  assert (i ∈ seq 0 (length allNodes)) as Hin by (apply elem_of_seq; lia).
  apply (checkCircular_Done _ _ _ _ (H i Hin) i Hi).
  by left.
Qed.

Lemma checkAllCircular_Throw fuel e :
  dependenciesExist allNodes → checkAll fuel = Throw e →
  ∃ chain r, e = CircularDependency (nodeName allNodes <$> chain)
                                    (nodeName allNodes r)
             ∧ r ∈ chain ∧ dependencyPath allNodes (chain ++ [r]).
Proof.
  intros Hex H. apply forEach_Throw in H as (l1 & i & l2 & Hl & _ & H).
  assert (i ∈ seq 0 (length allNodes)) as Hin.
  { rewrite Hl. apply elem_of_app. right. by left. }
  apply elem_of_seq in Hin.
  apply checkCircular_Throw in H as (chain & r & -> & _ & Hr & Hp);
    [by eauto|done|simpl; lia].
Qed.

(** With all dependencies present, the cycle check returns when the graph
    has no cycle and throws a chain of the graph when it has one. *)
Lemma checkAllCircular_outcome :
  dependenciesExist allNodes →
  (checkAll (S (length allNodes)) = Done tt ∧ ¬ hasCycle allNodes)
  ∨ (∃ chain r,
       checkAll (S (length allNodes))
       = Throw (CircularDependency (nodeName allNodes <$> chain)
                                   (nodeName allNodes r))
       ∧ r ∈ chain ∧ dependencyPath allNodes (chain ++ [r])
       ∧ hasCycle allNodes).
Proof.
  intros Hex.
  destruct (checkAll (S (length allNodes))) as [[]|e|] eqn:H.
  - left. split; [done|]. by eapply checkAllCircular_Done.
  - right. destruct (checkAllCircular_Throw _ _ Hex H)
      as (chain & r & -> & Hr & Hp).
    exists chain, r. split; [done|]. split; [done|]. split; [done|].
    by eapply dependencyPath_cycle.
  - exfalso. revert H. apply checkAllCircular_fuel. lia.
Qed.

End CheckAllCircular.

(** ** Selection *)

Lemma elem_of_foldl_pushNew (names l : list string) (x : string) :
  x ∈ foldl pushNew names l ↔ x ∈ names ∨ x ∈ l.
Proof.
  revert names. induction l as [|y l IH]; intros names; simpl.
  - rewrite elem_of_nil. split; [by left|by intros [?|[]]].
  - rewrite IH, elem_of_cons. unfold pushNew. case_bool_decide as Hy.
    + split; [intros [?|?]; auto|]. intros [?|[->|?]]; auto.
    + rewrite elem_of_app, list_elem_of_singleton.
      split; [intros [[?|?]|?]; auto|intros [?|[?|?]]; auto].
Qed.

Lemma foldl_pushNew_id (names l : list string) :
  l ⊆ names → foldl pushNew names l = names.
Proof.
  induction l as [|y l IH]; intros Hl; simpl; [done|].
  unfold pushNew at 2. rewrite bool_decide_eq_true_2.
  - apply IH. intros x Hx. apply Hl. by right.
  - apply Hl. by left.
Qed.

Lemma matchingNodeNames_eq (allNodeNames : list string) (node : ExecutionNode) :
  matchingNodeNames allNodeNames node
  = matchPatterns (dependencies node) allNodeNames.
Proof.
  unfold matchingNodeNames. destruct (dependencies node); [|done].
  by rewrite matchPatterns_nil.
Qed.

Lemma elem_of_includedOf (allNodes : list ExecutionNode) names node :
  node ∈ includedOf allNodes names ↔ name node ∈ names ∧ node ∈ allNodes.
Proof. unfold includedOf. by rewrite list_elem_of_filter. Qed.

Lemma includedOf_nil (allNodes : list ExecutionNode) : includedOf allNodes [] = [].
Proof.
  unfold includedOf. induction allNodes as [|n l IH]; [done|].
  rewrite filter_cons. case_decide as H; [|done].
  by apply not_elem_of_nil in H.
Qed.

Section Expansion.

Context (allNodes : list ExecutionNode).

Local Abbreviation allNodeNames := (name <$> allNodes).
Local Abbreviation step := (expandPass allNodes allNodeNames).

Local Abbreviation consistent := (consistent allNodes).

Lemma expandNodes_consistent l st :
  consistent st → consistent (foldl (expandNode allNodes allNodeNames) st l).
Proof.
  revert st. induction l as [|node l IH]; intros st Hst; simpl; [done|].
  by apply IH.
Qed.

Lemma expandPass_consistent st : consistent st → consistent (step st).
Proof. apply expandNodes_consistent. Qed.

Lemma elem_of_expandNodes l st x :
  x ∈ (foldl (expandNode allNodes allNodeNames) st l).1
  ↔ x ∈ st.1 ∨ ∃ node, node ∈ l
                        ∧ x ∈ matchPatterns (dependencies node) allNodeNames.
Proof.
  revert st. induction l as [|node l IH]; intros st; simpl.
  - split; [by left|]. intros [?|(node & Hn & _)]; [done|].
    by apply not_elem_of_nil in Hn.
  - rewrite IH. simpl. rewrite elem_of_foldl_pushNew, matchingNodeNames_eq.
    split.
    + intros [[?|?]|(n & Hn & Hx)]; [by left| |].
      * right. exists node. split; [by left|done].
      * right. exists n. split; [by right|done].
    + intros [?|(n & Hn & Hx)]; [by left; left|].
      apply elem_of_cons in Hn as [->|Hn]; [by left; right|].
      right. by exists n.
Qed.

(** One round adds the names that the included nodes select. *)
Lemma elem_of_expandPass st x :
  consistent st →
  x ∈ (step st).1 ↔ x ∈ st.1 ∨ ∃ y, y ∈ st.1 ∧ selects allNodes y x.
Proof.
  intros Hst. unfold expandPass. rewrite elem_of_expandNodes, Hst.
  split; (intros [?|H]; [by left|right]).
  - destruct H as (node & Hn & Hx). apply elem_of_includedOf in Hn as [Hn Hin].
    exists (name node). split; [done|]. by exists node.
  - destruct H as (y & Hy & node & Hin & <- & Hx).
    exists node. split; [|done]. by apply elem_of_includedOf.
Qed.

Lemma expandPass_stable st :
  consistent st → (step st).1 ⊆ st.1 → dependencyClosed allNodes st.1.
Proof.
  intros Hst Hsub x y Hx Hxy. apply Hsub. apply elem_of_expandPass; [done|].
  right. by exists x.
Qed.

Lemma expandPass_closed st :
  consistent st → dependencyClosed allNodes st.1 →
  dependencyClosed allNodes (step st).1.
Proof.
  intros Hst Hcl.
  assert (∀ x, x ∈ (step st).1 ↔ x ∈ st.1) as Heq.
  { intros x. rewrite elem_of_expandPass by done. split; [|by left].
    intros [?|(y & Hy & Hyx)]; [done|]. by eapply Hcl. }
  intros x y Hx Hxy. apply Heq. eapply Hcl; [|done]. by apply Heq.
Qed.

Lemma distinct_lt (l k : list string) (x : string) :
  l ⊆ k → x ∈ k → x ∉ l → distinct l < distinct k.
Proof.
  intros Hsub Hx Hnx. unfold distinct.
  assert (x :: remove_dups l ⊆+ remove_dups k) as H.
  { apply NoDup_submseteq.
    - apply NoDup_cons. split; [by rewrite elem_of_remove_dups|].
      apply NoDup_remove_dups.
    - intros y Hy. apply elem_of_remove_dups.
      apply elem_of_cons in Hy as [->|Hy]; [done|].
      apply Hsub. by rewrite elem_of_remove_dups in Hy. }
  apply submseteq_length in H. simpl in H. lia.
Qed.

Lemma distinct_le (l k : list string) : l ⊆ k → distinct l ≤ length k.
Proof.
  intros Hsub. unfold distinct. apply submseteq_length, NoDup_submseteq.
  - apply NoDup_remove_dups.
  - intros y Hy. apply Hsub. by rewrite elem_of_remove_dups in Hy.
Qed.

Lemma expandPass_subseteq st :
  consistent st → st.1 ⊆ allNodeNames → (step st).1 ⊆ allNodeNames.
Proof.
  intros Hst Hsub x Hx. rewrite elem_of_expandPass in Hx by done.
  destruct Hx as [Hx|Hx].
  - by apply Hsub.
  - destruct Hx as (y & _ & node & _ & _ & Hx).
    by apply matchPatterns_subseteq in Hx.
Qed.

(** A round either finds the set closed or adds a new name. *)
Lemma expandPass_progress st :
  consistent st →
  dependencyClosed allNodes st.1 ∨ distinct st.1 < distinct (step st).1.
Proof.
  intros Hst.
  destruct (decide (Forall (λ x, x ∈ st.1) (step st).1)) as [Hall|Hnot].
  - left. apply expandPass_stable; [done|]. intros x Hx.
    by eapply Forall_forall in Hall.
  - right. apply (not_Forall_Exists _) in Hnot.
    apply Exists_exists in Hnot as (x & Hx & Hnx).
    apply (distinct_lt _ _ x); [|done|done].
    intros y Hy. apply elem_of_expandPass; [done|]. by left.
Qed.

Lemma iter_expandPass_consistent k st :
  consistent st → consistent (Nat.iter k step st).
Proof.
  intros Hst. induction k as [|k IH]; simpl; [done|].
  by apply expandPass_consistent.
Qed.

Lemma iter_expandPass_subseteq k st :
  consistent st → st.1 ⊆ allNodeNames →
  (Nat.iter k step st).1 ⊆ allNodeNames.
Proof.
  intros Hst Hsub. induction k as [|k IH]; simpl; [done|].
  apply expandPass_subseteq; [|done]. by apply iter_expandPass_consistent.
Qed.

Lemma iter_expandPass_mono k st :
  consistent st → st.1 ⊆ (Nat.iter k step st).1.
Proof.
  intros Hst. induction k as [|k IH]; simpl; [done|].
  intros x Hx. apply elem_of_expandPass.
  - by apply iter_expandPass_consistent.
  - left. by apply IH.
Qed.

Lemma iter_expandPass_progress k st :
  consistent st →
  dependencyClosed allNodes (Nat.iter k step st).1
  ∨ distinct st.1 + k ≤ distinct (Nat.iter k step st).1.
Proof.
  intros Hst. induction k as [|k IH]; simpl.
  - right. lia.
  - pose proof (iter_expandPass_consistent k st Hst) as Hk.
    destruct IH as [Hcl|Hsize].
    + left. by apply expandPass_closed.
    + destruct (expandPass_progress _ Hk) as [Hcl|Hlt].
      * left. by apply expandPass_closed.
      * right. lia.
Qed.

(** After as many rounds as there are nodes, the set is closed. *)
Lemma expand_closed st :
  consistent st → st.1 ⊆ allNodeNames →
  dependencyClosed allNodes (expand allNodes allNodeNames st).1.
Proof.
  intros Hst Hsub. unfold expand.
  destruct (iter_expandPass_progress (length allNodes) st Hst)
    as [Hcl|Hsize]; [done|].
  pose proof (distinct_le _ _
    (iter_expandPass_subseteq (length allNodes) st Hst Hsub)) as Hle.
  rewrite length_fmap in Hle.
  assert (distinct st.1 = 0) as Hz by lia.
  assert (st.1 = []) as Hnil.
  { unfold distinct in Hz. apply length_zero_iff_nil in Hz.
    destruct st.1 as [|x l]; [done|].
    assert (x ∈ remove_dups (x :: l)) as Hx.
    { apply elem_of_remove_dups. by left. }
    rewrite Hz in Hx. by apply not_elem_of_nil in Hx. }
  assert (∀ k, (Nat.iter k step st).1 = []) as Hk.
  { intros k. induction k as [|k IHk]; [done|].
    change (Nat.iter (S k) step st) with (step (Nat.iter k step st)).
    pose proof (iter_expandPass_consistent k st Hst) as Hc.
    unfold consistent in Hc. rewrite IHk, includedOf_nil in Hc.
    unfold expandPass at 1. by rewrite Hc. }
  rewrite Hk. intros x y Hx. by apply not_elem_of_nil in Hx.
Qed.

Lemma dependencyClosed_rtc names x y :
  dependencyClosed allNodes names → x ∈ names →
  rtc (selects allNodes) x y → y ∈ names.
Proof.
  intros Hcl Hx Hxy. induction Hxy as [|x y z Hxy _ IH]; [done|].
  apply IH. by eapply Hcl.
Qed.

(** Only names reached from the initial ones are added. *)
Lemma iter_expandPass_reached k st x :
  consistent st → x ∈ (Nat.iter k step st).1 →
  ∃ x0, x0 ∈ st.1 ∧ rtc (selects allNodes) x0 x.
Proof.
  intros Hst. revert x. induction k as [|k IH]; intros x; simpl.
  - intros Hx. by exists x.
  - intros Hx.
    rewrite elem_of_expandPass in Hx by (by apply iter_expandPass_consistent).
    destruct Hx as [Hx|(y & Hy & Hyx)]; [by apply IH|].
    destruct (IH y Hy) as (x0 & Hx0 & Hr). exists x0. split; [done|].
    eapply rtc_r; done.
Qed.

End Expansion.

Lemma initialNames_subseteq (rc : RunConfig) (allNodeNames : list string) :
  initialNames rc allNodeNames ⊆ allNodeNames.
Proof.
  unfold initialNames. destruct (rc_nodes rc) as [[|p ps]|]; try done.
  apply matchPatterns_subseteq.
Qed.

Lemma select_consistent (allNodes : list ExecutionNode) (rc : RunConfig) :
  consistent allNodes (select allNodes rc).
Proof.
  unfold select. destruct (includeDependencies rc); [|done].
  by apply iter_expandPass_consistent.
Qed.

Lemma select_subseteq (allNodes : list ExecutionNode) (rc : RunConfig) :
  (select allNodes rc).1 ⊆ name <$> allNodes.
Proof.
  unfold select. destruct (includeDependencies rc).
  - apply iter_expandPass_subseteq; [done|]. apply initialNames_subseteq.
  - apply initialNames_subseteq.
Qed.


(** ** The outcomes of [build] *)

Section BuildOutcome.

Context {ProjectConfig Body : Type}.
Context (adapter_build :
  ProjectConfig → Materialization Body → RunConfig → list ExecutionTask).

Local Abbreviation translate' := (translate adapter_build).
Local Abbreviation build' := (build adapter_build).

Local Abbreviation selected := (selected adapter_build).

(** [build] does one of three things. *)
Lemma build_cases (g : CompiledGraph ProjectConfig Body) (rc : RunConfig) :
  let allNodes := translate' g rc in
  (∃ node d, node ∈ allNodes ∧ d ∈ dependencies node
             ∧ ¬ (d ∈ name <$> allNodes)
             ∧ build' g rc = Throw (MissingDependency (name node) d))
  ∨ (dependenciesExist allNodes ∧ hasCycle allNodes
     ∧ ∃ chain r, r ∈ chain ∧ dependencyPath allNodes (chain ++ [r])
         ∧ build' g rc = Throw (CircularDependency (nodeName allNodes <$> chain)
                                                   (nodeName allNodes r)))
  ∨ (dependenciesExist allNodes ∧ ¬ hasCycle allNodes
     ∧ build' g rc = Done (selected g rc)).
Proof.
  intros allNodes. unfold build. fold allNodes.
  destruct (checkDependenciesExist allNodes (name <$> allNodes))
    as [[]|e|] eqn:Hex.
  - apply checkDependenciesExist_Done in Hex. right.
    destruct (checkAllCircular_outcome allNodes Hex)
      as [[Hc Hno]|(chain & r & Hc & Hr & Hp & Hcyc)]; rewrite Hc.
    + right. done.
    + left. split; [done|]. split; [done|]. by exists chain, r.
  - left. apply checkDependenciesExist_Throw in Hex
      as (node & d & -> & Hn & Hd & Hnot).
    by exists node, d.
  - by apply checkDependenciesExist_fuel in Hex.
Qed.

Lemma build_Done (g : CompiledGraph ProjectConfig Body) (rc : RunConfig) eg :
  build' g rc = Done eg →
  dependenciesExist (translate' g rc) ∧ ¬ hasCycle (translate' g rc)
  ∧ eg = selected g rc.
Proof.
  intros H.
  destruct (build_cases g rc)
    as [(? & ? & _ & _ & _ & H')|[(_ & _ & ? & ? & _ & _ & H')|(? & ? & H')]];
    rewrite H' in H; by simplify_eq.
Qed.

Lemma build_validated (g : CompiledGraph ProjectConfig Body) (rc : RunConfig) :
  dependenciesExist (translate' g rc) → ¬ hasCycle (translate' g rc) →
  build' g rc = Done (selected g rc).
Proof.
  intros Hex Hno.
  destruct (build_cases g rc)
    as [(n & d & Hn & Hd & Hnot & _)|[(_ & ? & _)|(_ & _ & H')]];
    [|done|done].
  exfalso. apply Hnot. by eapply Hex.
Qed.

End BuildOutcome.





(** ** Translation *)

Lemma length_filter_fmap {A B : Type} (f : A → B) (P : B → Prop)
    `{!∀ y, Decision (P y)} (l : list A) :
  length (filter P (f <$> l)) = length (filter (λ x, P (f x)) l).
Proof.
  induction l as [|x l IH]; [done|]. rewrite fmap_cons, !filter_cons.
  destruct (decide (P (f x))); simpl; by rewrite IH.
Qed.

Lemma named_absent (l : list ExecutionNode) (x : string) :
  ¬ (x ∈ name <$> l) → named x l = 0.
Proof.
  unfold named. induction l as [|n l IH]; intros H; [done|].
  rewrite fmap_cons, not_elem_of_cons in H. destruct H as [Hne H].
  rewrite filter_cons, decide_False by done. by apply IH.
Qed.

(** A name borne by one node only is counted once. *)
Lemma named_NoDup (l : list ExecutionNode) (x : string) :
  NoDup (name <$> l) → x ∈ (name <$> l) → named x l = 1.
Proof.
  induction l as [|n l IH]; intros Hnd Hx.
  - by apply not_elem_of_nil in Hx.
  - rewrite fmap_cons in Hnd, Hx. apply NoDup_cons in Hnd as [Hn Hnd].
    unfold named. rewrite filter_cons.
    destruct (decide (name n = x)) as [Heq|Hne].
    + simpl. f_equal. apply named_absent. by rewrite <-Heq.
    + apply elem_of_cons in Hx as [Hx|Hx]; [done|]. by apply IH.
Qed.

Section Translation.

Context {ProjectConfig Body : Type}.
Context (adapter_build :
  ProjectConfig → Materialization Body → RunConfig → list ExecutionTask).
Context (g : CompiledGraph ProjectConfig Body) (rc : RunConfig).

Local Abbreviation allNodes := (translate adapter_build g rc).
Local Abbreviation ms := (materializations g).
Local Abbreviation os := (operations g).

Lemma translate_length :
  length allNodes = length ms + length os + length (assertions g).
Proof. unfold translate. rewrite !length_app, !length_fmap. lia. Qed.

Lemma translate_lookup_materialization i m :
  ms !! i = Some m →
  allNodes !! i = Some (buildMaterialization adapter_build (projectConfig g) rc m).
Proof.
  intros H. unfold translate. rewrite lookup_app_l.
  - by rewrite list_lookup_fmap, H.
  - rewrite length_fmap. by eapply lookup_lt_Some.
Qed.

Lemma translate_lookup_operation i o :
  os !! i = Some o → allNodes !! (length ms + i) = Some (buildOperation o).
Proof.
  intros H. unfold translate.
  rewrite lookup_app_r by (rewrite length_fmap; lia).
  rewrite length_fmap. replace (length ms + i - length ms) with i by lia.
  rewrite lookup_app_l.
  - by rewrite list_lookup_fmap, H.
  - rewrite length_fmap. by eapply lookup_lt_Some.
Qed.

Lemma translate_lookup_assertion i a :
  assertions g !! i = Some a →
  allNodes !! (length ms + length os + i) = Some (buildAssertion a).
Proof.
  intros H. unfold translate.
  rewrite lookup_app_r by (rewrite length_fmap; lia).
  rewrite lookup_app_r by (rewrite !length_fmap; lia).
  rewrite !length_fmap.
  replace (length ms + length os + i - length ms - length os) with i by lia.
  by rewrite list_lookup_fmap, H.
Qed.

(** A node at or after the first assertion node comes from an assertion. *)
Lemma translate_lookup_ge j n :
  allNodes !! j = Some n → length ms + length os ≤ j →
  ∃ a, a ∈ assertions g ∧ n = buildAssertion a.
Proof.
  intros H Hj. unfold translate in H.
  rewrite lookup_app_r in H by (rewrite length_fmap; lia).
  rewrite lookup_app_r in H by (rewrite !length_fmap; lia).
  apply list_lookup_fmap_Some in H as (a & -> & Ha).
  exists a. split; [|done]. by eapply list_elem_of_lookup_2.
Qed.

Lemma translate_named x :
  named x allNodes
  = length (filter (λ m, m_name m = x) ms)
    + length (filter (λ o, o_name o = x) os)
    + length (filter (λ a, a_name a = x) (assertions g)).
Proof.
  unfold named, translate.
  rewrite !filter_app, !length_app, !length_filter_fmap. simpl. lia.
Qed.

End Translation.


(** * The claims of the specification *)

Lemma Forall2_fmap_intro {A B : Type} (R : A → B → Prop) (f : A → B)
    (l : list A) :
  (∀ x, R x (f x)) → Forall2 R l (f <$> l).
Proof. intros H. induction l; constructor; auto. Qed.

Section Claims.

Context {ProjectConfig Body : Type}.
Context (adapter_build :
  ProjectConfig → Materialization Body → RunConfig → list ExecutionTask).

Local Abbreviation translate' := (translate adapter_build).
Local Abbreviation build' := (build adapter_build).

(** Translation yields one node per entity, materializations first, then
    operations, then assertions; names and dependencies are those of the
    entity.  The tasks of a materialization are a task for each pre, the
    tasks of the adapter, a task for each post and an assertion task for
    each of its assertions, in that order; the tasks of the pres and posts
    are created without a [type] field.  The tasks of an operation are a
    statement task for each statement and those of an assertion an
    assertion task for each query, in declared order.  A name is borne by
    as many nodes as there are entities of that name: by one node when the
    names of the entities are pairwise distinct. *)
Theorem translate_complete (g : CompiledGraph ProjectConfig Body)
    (rc : RunConfig) :
  length (translate' g rc)
  = length (materializations g) + length (operations g)
    + length (assertions g)
  ∧ (∀ x, named x (translate' g rc)
          = length (filter (λ m, m_name m = x) (materializations g))
            + length (filter (λ o, o_name o = x) (operations g))
            + length (filter (λ a, a_name a = x) (assertions g)))
  ∧ (∀ i m, materializations g !! i = Some m →
       ∃ node preTasks postTasks assertionTasks,
         translate' g rc !! i = Some node
         ∧ name node = m_name m
         ∧ dependencies node = m_dependencies m
         ∧ tasks node = preTasks ++ adapter_build (projectConfig g) m rc
                          ++ postTasks ++ assertionTasks
         ∧ preTasks
           = (λ pre, {| type := None; statement := pre |}) <$> pres m
         ∧ postTasks
           = (λ post, {| type := None; statement := post |}) <$> posts m
         ∧ assertionTasks
           = (λ assertion,
                {| type := Some "assertion"; statement := assertion |})
               <$> m_assertions m
         ∧ Forall2 untypedTask (pres m) preTasks
         ∧ Forall2 untypedTask (posts m) postTasks
         ∧ Forall2 assertionTask (m_assertions m) assertionTasks)
  ∧ (∀ i o, operations g !! i = Some o →
       ∃ node,
         translate' g rc !! (length (materializations g) + i) = Some node
         ∧ name node = o_name o
         ∧ dependencies node = o_dependencies o
         ∧ Forall2 statementTask (statements o) (tasks node))
  ∧ (∀ i a, assertions g !! i = Some a →
       ∃ node,
         translate' g rc
           !! (length (materializations g) + length (operations g) + i)
         = Some node
         ∧ name node = a_name a
         ∧ dependencies node = a_dependencies a
         ∧ Forall2 assertionTask (queries a) (tasks node))
  ∧ (NoDup (name <$> translate' g rc) →
     ∀ node, node ∈ translate' g rc →
             named (name node) (translate' g rc) = 1).
Proof.
  split; [apply translate_length|].
  split; [apply translate_named|].
  split; [|split; [|split]].
  - intros i m Hm.
    exists (buildMaterialization adapter_build (projectConfig g) rc m),
      ((λ pre, {| type := None; statement := pre |}) <$> pres m),
      ((λ post, {| type := None; statement := post |}) <$> posts m),
      ((λ assertion, {| type := Some "assertion"; statement := assertion |})
         <$> m_assertions m).
    split; [by apply translate_lookup_materialization|].
    split; [done|]. split; [done|]. split; [done|].
    split; [done|]. split; [done|]. split; [done|].
    split; [|split]; apply Forall2_fmap_intro; intros x; by split.
  - intros i o Ho. exists (buildOperation o).
    split; [by apply translate_lookup_operation|].
    split; [done|]. split; [done|].
    apply Forall2_fmap_intro. intros x. by split.
  - intros i a Ha. exists (buildAssertion a).
    split; [by apply translate_lookup_assertion|].
    split; [done|]. split; [done|].
    apply Forall2_fmap_intro. intros x. by split.
  - intros Hnd node Hnode. apply named_NoDup; [done|].
    by apply list_elem_of_fmap_2.
Qed.

(** C1: in the graph that [build] returns, every name in the dependencies
    of a node is the name of a node of the graph: the nodes returned are the
    nodes whose names are in the final [includedNodeNames], each with its
    dependencies replaced by what the matcher keeps of them among these
    names. *)
Theorem build_no_dangling (g : CompiledGraph ProjectConfig Body)
    (rc : RunConfig) (eg : ExecutionGraph ProjectConfig) :
  build' g rc = Done eg →
  (∃ includedNodeNames,
     eg_nodes eg
     = prune includedNodeNames
         <$> includedOf (translate' g rc) includedNodeNames)
  ∧ ∀ node d, node ∈ eg_nodes eg → d ∈ dependencies node →
              ∃ node', node' ∈ eg_nodes eg ∧ name node' = d.
Proof.
  intros H. apply build_Done in H as (_ & _ & ->). unfold selected. simpl.
  pose proof (select_consistent (translate' g rc) rc) as Hc.
  pose proof (select_subseteq (translate' g rc) rc) as Hsub.
  destruct (select (translate' g rc) rc) as [names nodes].
  unfold consistent in Hc. simpl in *. subst nodes.
  split; [by exists names|].
  intros node d Hnode Hd.
  apply list_elem_of_fmap in Hnode as (n & -> & Hn). simpl in Hd.
  apply elem_of_matchPatterns in Hd as [Hd _].
  pose proof (Hsub _ Hd) as Hall.
  apply list_elem_of_fmap in Hall as (m & -> & Hm).
  exists (prune names m). split; [|done].
  apply list_elem_of_fmap_2, elem_of_includedOf. by split.
Qed.

(** C3: [build] throws exactly when validation fails, that is, when a
    dependency is missing or the dependency graph has a cycle.  When a node
    declares a dependency that no node bears, the exception names that node
    and that dependency, and nothing is returned; when every dependency is
    the name of a node, no missing-dependency exception is thrown. *)
Theorem build_throws_iff_validation_fails
    (g : CompiledGraph ProjectConfig Body) (rc : RunConfig) :
  ((∃ e, build' g rc = Throw e)
   ↔ ¬ dependenciesExist (translate' g rc) ∨ hasCycle (translate' g rc))
  ∧ (¬ dependenciesExist (translate' g rc) →
     ∃ node d,
       node ∈ translate' g rc ∧ d ∈ dependencies node
       ∧ ¬ (d ∈ name <$> translate' g rc)
       ∧ build' g rc = Throw (MissingDependency (name node) d)
       ∧ message (MissingDependency (name node) d)
         = "Node " +:+ quote +:+ name node +:+ quote +:+ " depends on "
             +:+ quote +:+ d +:+ quote +:+ " which does not exist."
       ∧ ∀ eg, build' g rc ≠ Done eg)
  ∧ (dependenciesExist (translate' g rc) →
     ∀ node d, build' g rc ≠ Throw (MissingDependency node d)).
Proof.
  pose proof (build_cases adapter_build g rc) as Hcases. simpl in Hcases.
  split; [split|split].
  - intros [e He].
    destruct Hcases as [(n & d & Hn & Hd & Hnot & _)
                       |[(_ & Hcyc & _)|(_ & _ & H)]].
    + left. intros Hex. apply Hnot. by eapply Hex.
    + by right.
    + rewrite H in He. done.
  - intros Hfail.
    destruct Hcases as [(n & d & _ & _ & _ & H)
                       |[(_ & _ & c & r & _ & _ & H)|(Hex & Hno & _)]].
    + by eexists.
    + by eexists.
    + by destruct Hfail.
  - intros Hnex.
    destruct Hcases as [(n & d & Hn & Hd & Hnot & H)|[(Hex & _)|(Hex & _)]];
      [|done|done].
    exists n, d. rewrite H. done.
  - intros Hex node d H.
    destruct Hcases as [(n & d' & Hn & Hd & Hnot & _)
                       |[(_ & _ & c & r & _ & _ & H')|(_ & _ & H')]].
    + apply Hnot. by eapply Hex.
    + rewrite H' in H. done.
    + rewrite H' in H. done.
Qed.


(** C9: the recursive check terminates, also on a graph with cycles.  The
    chain of the nodes being visited has no repetition and holds nodes of
    the graph, so it is no longer than the graph; each call puts one more
    node on it, and a call whose node is on the chain throws instead of
    going deeper.  A budget of one call more than the nodes that are not on
    the chain is therefore never used up, and a larger budget gives the same
    result. *)
Theorem checkCircular_terminates (allNodes : list ExecutionNode)
    (fuel node : nat) (dependents : list nat) :
  NoDup dependents → (∀ x, x ∈ dependents → x < length allNodes) →
  length allNodes < fuel + length dependents →
  checkCircular allNodes (nodeNameMap allNodes) fuel node dependents
    ≠ OutOfFuel
  ∧ (∀ fuel', fuel ≤ fuel' →
       checkCircular allNodes (nodeNameMap allNodes) fuel' node dependents
       = checkCircular allNodes (nodeNameMap allNodes) fuel node dependents)
  ∧ (node ∈ dependents →
       checkCircular allNodes (nodeNameMap allNodes) fuel node dependents
       = Throw (CircularDependency (nodeName allNodes <$> dependents)
                                   (nodeName allNodes node)))
  ∧ length dependents ≤ length allNodes.
Proof.
  intros Hnd Hlt Hfuel.
  pose proof (checkCircular_fuel allNodes fuel node dependents Hnd Hlt Hfuel)
    as Hterm.
  pose proof (NoDup_bounded_length _ _ Hnd Hlt) as Hlen.
  split; [done|]. split; [|split; [|done]].
  - intros fuel' Hle. by apply checkCircular_fuel_mono.
  - intros Hin. destruct fuel as [|fuel]; [lia|]. simpl.
    by rewrite bool_decide_eq_true_2.
Qed.

(** [build] always comes to an end. *)
Lemma build_terminates (g : CompiledGraph ProjectConfig Body) (rc : RunConfig) :
  build' g rc ≠ OutOfFuel.
Proof.
  destruct (build_cases adapter_build g rc)
    as [(? & ? & _ & _ & _ & H)|[(_ & _ & ? & ? & _ & _ & H)|(_ & _ & H)]];
    by rewrite H.
Qed.

Lemma prune_named (names : list string) (x : string) (l : list ExecutionNode) :
  named x (prune names <$> l) = named x l.
Proof. unfold named. by rewrite length_filter_fmap. Qed.

Lemma includedOf_named (allNodes : list ExecutionNode) (names : list string)
    (x : string) :
  x ∈ names → named x (includedOf allNodes names) = named x allNodes.
Proof.
  intros Hx. unfold named, includedOf.
  induction allNodes as [|n l IH]; [done|].
  rewrite !filter_cons. destruct (decide (name n = x)) as [Heq|Hne].
  - rewrite decide_True by (by rewrite Heq). rewrite filter_cons.
    rewrite decide_True by done. simpl. by rewrite IH.
  - destruct (decide (name n ∈ names)); [|done].
    rewrite filter_cons, decide_False by done. done.
Qed.

Lemma includedOf_named_absent (allNodes : list ExecutionNode)
    (names : list string) (x : string) :
  ¬ (x ∈ name <$> allNodes) → named x (includedOf allNodes names) = 0.
Proof.
  intros Hx. apply named_absent. intros Hin. apply Hx.
  apply list_elem_of_fmap in Hin as (n & -> & Hn).
  apply elem_of_includedOf in Hn as [_ Hn]. by apply list_elem_of_fmap_2.
Qed.

(** The names first matched are among the names included in the end. *)
Lemma initialNames_select (allNodes : list ExecutionNode) (rc : RunConfig)
    (x : string) :
  x ∈ initialNames rc (name <$> allNodes) → x ∈ (select allNodes rc).1.
Proof.
  intros Hx. unfold select. destruct (includeDependencies rc); [|done].
  by apply iter_expandPass_mono.
Qed.

(** A name that a selector matches, or any name when there is no
    selector, is among the names first matched. *)
Lemma initialNames_selected (rc : RunConfig) (allNodeNames : list string)
    (x : string) :
  x ∈ allNodeNames →
  (rc_nodes rc = None ∨ rc_nodes rc = Some []
   ∨ ∃ ps q, rc_nodes rc = Some ps ∧ q ∈ ps ∧ matchPattern q x = true) →
  x ∈ initialNames rc allNodeNames.
Proof.
  intros Hx [H|[H|(ps & q & H & Hq & Hm)]]; unfold initialNames; rewrite H;
    [done|done|].
  destruct ps as [|p ps]; [by apply not_elem_of_nil in Hq|].
  apply elem_of_matchPatterns. split; [done|]. by exists q.
Qed.

(** C10: [build] has no check on names, and a name shared by several
    entities is no error: validation fails on a missing dependency or on a
    cycle only, and a graph that passes it is built.  All the nodes of a
    shared name are among the translated nodes, and all of them are returned
    when the name is selected.  The name map sends a name to the last
    translated node of that name, so that an assertion shadows the operations
    and materializations of its name, and an operation the materializations
    of its name; the cycle check of a node goes on, for each of its
    dependencies, with the node that the map gives, the shadowing one.
    So, with all dependencies present, a circular dependency is reported
    exactly when there is a cycle in the graph in which each dependency
    leads to the last node of its name; and every node whose name a
    selector matches (every node, without selectors) is returned.  Of a
    materialization [A] and an assertion [A], a dependency of the
    materialization on [A] is no cycle and both nodes are returned, while a
    dependency of the assertion on [A] is reported as [A > A]. *)
Theorem name_collision_shadowing (g : CompiledGraph ProjectConfig Body)
    (rc : RunConfig) :
  (∀ d j, nodeNameMap (translate' g rc) !! d = Some j
          ↔ lastNamed (translate' g rc) d j)
  ∧ (∀ a, a ∈ assertions g →
       ∃ j, nodeNameMap (translate' g rc) !! a_name a = Some j
            ∧ length (materializations g) + length (operations g) ≤ j)
  ∧ (∀ o, o ∈ operations g →
       (∀ a, a ∈ assertions g → a_name a ≠ o_name o) →
       ∃ j, nodeNameMap (translate' g rc) !! o_name o = Some j
            ∧ length (materializations g) ≤ j
            ∧ j < length (materializations g) + length (operations g))
  ∧ (∀ fuel node n dependents,
       translate' g rc !! node = Some n → node ∉ dependents →
       dependenciesExist (translate' g rc) →
       checkCircular (translate' g rc) (nodeNameMap (translate' g rc))
                     (S fuel) node dependents
       = forEach (λ d,
           match nodeNameMap (translate' g rc) !! d with
           | Some j =>
               checkCircular (translate' g rc) (nodeNameMap (translate' g rc))
                             fuel j (dependents ++ [node])
           | None => Throw UndefinedNode
           end) (dependencies n)
       ∧ ∀ d, d ∈ dependencies n → ∃ j, lastNamed (translate' g rc) d j)
  ∧ (∀ e, build' g rc = Throw e →
       (∃ node d, e = MissingDependency node d
                  ∧ ¬ (d ∈ name <$> translate' g rc))
       ∨ (∃ chain node, e = CircularDependency chain node
                        ∧ hasCycle (translate' g rc)))
  ∧ (dependenciesExist (translate' g rc) → ¬ hasCycle (translate' g rc) →
     ∃ eg, build' g rc = Done eg)
  ∧ (∀ x, named x (translate' g rc)
          = length (filter (λ m, m_name m = x) (materializations g))
            + length (filter (λ o, o_name o = x) (operations g))
            + length (filter (λ a, a_name a = x) (assertions g)))
  ∧ (∀ eg x, build' g rc = Done eg →
       x ∈ (select (translate' g rc) rc).1 →
       named x (eg_nodes eg) = named x (translate' g rc))
  ∧ (dependenciesExist (translate' g rc) →
     ((∃ chain node, build' g rc = Throw (CircularDependency chain node))
      ↔ hasCycle (translate' g rc)))
  ∧ (∀ eg x, build' g rc = Done eg →
       (rc_nodes rc = None ∨ rc_nodes rc = Some []
        ∨ ∃ ps q, rc_nodes rc = Some ps ∧ q ∈ ps ∧ matchPattern q x = true) →
       named x (eg_nodes eg) = named x (translate' g rc))
  ∧ build sampleAdapter collidingGraph (runOf ["A"] false)
    = Done {| eg_projectConfig := tt;
              eg_runConfig := runOf ["A"] false;
              eg_nodes :=
                [ {| name := "A"; dependencies := ["A"];
                     tasks := [createTable "A"] |};
                  {| name := "A"; dependencies := [];
                     tasks := [ {| type := Some "assertion";
                                   statement := "select 1" |} ] |} ] |}
  ∧ build sampleAdapter shadowingCycleGraph (runOf ["A"] false)
    = Throw (CircularDependency ["A"] "A").
Proof.
  split; [intros d j; apply nodeNameMap_lookup|].
  split; [|split; [|split; [|split; [|split; [|split; [|split;
    [|split; [|split; [|split; [by vm_compute|by vm_compute]]]]]]]]]].
  - intros a Ha. apply list_elem_of_lookup in Ha as [i Hi].
    pose proof (translate_lookup_assertion adapter_build g rc i a Hi) as Hn.
    assert (a_name a ∈ name <$> translate' g rc) as Hin.
    { apply (list_elem_of_fmap_2' _ _ (buildAssertion a)); [|done].
      by eapply list_elem_of_lookup_2. }
    apply lastNamed_exists in Hin as [j Hj]. exists j.
    split; [by apply nodeNameMap_lookup|].
    destruct Hj as [_ Hlast].
    destruct (decide (length (materializations g) + length (operations g) ≤ j))
      as [|Hlt]; [done|].
    exfalso.
    apply (Hlast (length (materializations g) + length (operations g) + i)
                 (buildAssertion a)); [lia|done|done].
  - intros o Ho Hdiff. apply list_elem_of_lookup in Ho as [i Hi].
    pose proof (translate_lookup_operation adapter_build g rc i o Hi) as Hn.
    assert (o_name o ∈ name <$> translate' g rc) as Hin.
    { apply (list_elem_of_fmap_2' _ _ (buildOperation o)); [|done].
      by eapply list_elem_of_lookup_2. }
    apply lastNamed_exists in Hin as [j Hj]. exists j.
    split; [by apply nodeNameMap_lookup|].
    destruct Hj as [(nj & Hnj & Hname) Hlast].
    split.
    + destruct (decide (length (materializations g) ≤ j)) as [|Hlt]; [done|].
      exfalso.
      apply (Hlast (length (materializations g) + i) (buildOperation o));
        [lia|done|done].
    + destruct (decide (j < length (materializations g)
                            + length (operations g))) as [|Hge]; [done|].
      exfalso.
      assert (length (materializations g) + length (operations g) ≤ j)
        as Hj by lia.
      destruct (translate_lookup_ge adapter_build g rc j nj Hnj Hj)
        as (a & Ha & ->).
      by apply (Hdiff a Ha).
  - intros fuel node n dependents Hn Hnot Hex. split.
    + simpl. rewrite bool_decide_eq_false_2 by done. by rewrite Hn.
    + intros d Hd. apply lastNamed_exists. eapply Hex; [|done].
      by eapply list_elem_of_lookup_2.
  - intros e He.
    destruct (build_cases adapter_build g rc)
      as [(n & d & _ & _ & Hnot & H)
         |[(_ & Hcyc & c & r & _ & _ & H)|(_ & _ & H)]];
      rewrite H in He; simplify_eq.
    + left. by eexists _, _.
    + right. by eexists _, _.
  - intros Hex Hno. eexists. by apply build_validated.
  - apply translate_named.
  - intros eg x H Hx. apply build_Done in H as (_ & _ & ->).
    unfold selected. simpl. rewrite prune_named.
    rewrite (select_consistent (translate' g rc) rc).
    by apply includedOf_named.
  - intros Hex.
    destruct (build_cases adapter_build g rc)
      as [(n & d & Hn & Hd & Hnot & _)
         |[(_ & Hcyc & c & r & _ & _ & H)|(_ & Hno & H)]].
    + exfalso. apply Hnot. by eapply Hex.
    + split; [done|]. intros _. by eexists _, _.
    + split; [|done]. intros (c & r & Hc). rewrite H in Hc. done.
  - intros eg x H Hsel. apply build_Done in H as (_ & _ & ->).
    unfold selected. simpl. rewrite prune_named.
    rewrite (select_consistent (translate' g rc) rc).
    destruct (decide (x ∈ name <$> translate' g rc)) as [Hx|Hx].
    + apply includedOf_named, initialNames_select.
      by apply initialNames_selected.
    + by rewrite includedOf_named_absent, named_absent.
Qed.

Lemma includedOf_all (allNodes : list ExecutionNode) (names : list string) :
  (∀ n, n ∈ allNodes → name n ∈ names) → includedOf allNodes names = allNodes.
Proof.
  unfold includedOf. induction allNodes as [|n l IH]; intros H; [done|].
  rewrite filter_cons, decide_True by (apply H; by left).
  f_equal. apply IH. intros m Hm. apply H. by right.
Qed.

Lemma initialNames_default (rc : RunConfig) (allNodeNames : list string) :
  rc_nodes rc = None ∨ rc_nodes rc = Some [] →
  initialNames rc allNodeNames = allNodeNames.
Proof. unfold initialNames. by intros [->| ->]. Qed.

Lemma translate_names (g : CompiledGraph ProjectConfig Body) (rc : RunConfig) :
  name <$> translate' g rc
  = (m_name <$> materializations g) ++ (o_name <$> operations g)
    ++ (a_name <$> assertions g).
Proof.
  unfold translate. rewrite !fmap_app, <-!list_fmap_compose. done.
Qed.

Lemma remove_dups_sublist (l : list string) : remove_dups l `sublist_of` l.
Proof.
  induction l as [|x l IH]; [done|]. simpl.
  destruct (decide_rel elem_of x l); by constructor.
Qed.

Lemma remove_dups_NoDup_id (l : list string) : NoDup l → remove_dups l = l.
Proof.
  induction 1 as [|x l Hx _ IH]; [done|]. simpl.
  destruct (decide_rel elem_of x l); [done|]. by rewrite IH.
Qed.

(** The matcher returns candidates in their order, each once. *)
Lemma matchPatterns_sublist (patterns values : list string) :
  matchPatterns patterns values `sublist_of` values.
Proof.
  unfold matchPatterns. etrans; [apply remove_dups_sublist|].
  apply sublist_filter.
Qed.

Lemma matchPatterns_NoDup (patterns values : list string) :
  NoDup (matchPatterns patterns values).
Proof. apply NoDup_remove_dups. Qed.

(** Plain names select, among distinct candidates, the candidates they
    name. *)
Lemma matchPatterns_plain (patterns values : list string) :
  Forall wildcardFree patterns → NoDup values →
  matchPatterns patterns values = filter (λ v, v ∈ patterns) values.
Proof.
  intros Hw Hnd. unfold matchPatterns.
  rewrite remove_dups_NoDup_id by (by apply NoDup_filter).
  apply list_filter_iff. intros v. rewrite Exists_exists. split.
  - intros (p & Hp & Hm). rewrite Forall_forall in Hw.
    apply Is_true_true in Hm.
    by rewrite <-(matchPattern_wildcardFree p v (Hw p Hp) Hm).
  - intros Hv. exists v. split; [done|].
    apply Is_true_true, matchPattern_refl.
Qed.

(** C6: for a graph that passes validation, when [runConfig.nodes] is
    absent or empty and [includeDependencies] is false, [build] returns all
    the translated nodes in the order of translation (materializations,
    operations, assertions) with their tasks, the dependencies of each pruned
    against the names of all nodes.  Pruning drops no declared dependency;
    what it keeps is matched by a declared dependency; when the declared
    dependencies are plain names (no wildcard), the names kept are those
    declared.  The list kept is not the list declared: it holds each name
    once, in the order of the names of the nodes; with plain names and
    pairwise distinct node names it is the list of the node names that are
    declared dependencies. *)
Theorem build_default_selection (g : CompiledGraph ProjectConfig Body)
    (rc : RunConfig) :
  dependenciesExist (translate' g rc) → ¬ hasCycle (translate' g rc) →
  rc_nodes rc = None ∨ rc_nodes rc = Some [] →
  includeDependencies rc = false →
  ∃ eg,
    build' g rc = Done eg
    ∧ name <$> eg_nodes eg
      = (m_name <$> materializations g) ++ (o_name <$> operations g)
        ++ (a_name <$> assertions g)
    ∧ eg_nodes eg = prune (name <$> translate' g rc) <$> translate' g rc
    ∧ Forall2 (λ out node,
        name out = name node ∧ tasks out = tasks node
        ∧ (∀ d, d ∈ dependencies node → d ∈ dependencies out)
        ∧ (∀ d, d ∈ dependencies out →
             ∃ p, p ∈ dependencies node ∧ matchPattern p d = true)
        ∧ (Forall wildcardFree (dependencies node) →
           ∀ d, d ∈ dependencies out ↔ d ∈ dependencies node)
        ∧ NoDup (dependencies out)
        ∧ dependencies out `sublist_of` (name <$> translate' g rc)
        ∧ (Forall wildcardFree (dependencies node) →
           NoDup (name <$> translate' g rc) →
           dependencies out
           = filter (λ x, x ∈ dependencies node) (name <$> translate' g rc)))
        (eg_nodes eg) (translate' g rc).
Proof.
  intros Hex Hno Hnodes Hdeps. exists (selected adapter_build g rc).
  split; [by apply build_validated|].
  assert (eg_nodes (selected adapter_build g rc)
          = prune (name <$> translate' g rc) <$> translate' g rc) as Heq.
  { unfold selected, select. rewrite Hdeps, initialNames_default by done.
    simpl. rewrite includedOf_all; [done|].
    intros n Hn. by apply list_elem_of_fmap_2. }
  rewrite Heq. split; [|split; [done|]].
  - rewrite <-list_fmap_compose. apply translate_names.
  - apply Forall2_fmap_l, Forall_Forall2_diag, Forall_forall.
    intros node Hnode. simpl. split; [done|]. split; [done|].
    assert (∀ d, d ∈ dependencies node
                 → d ∈ matchPatterns (dependencies node)
                                     (name <$> translate' g rc)) as Hkeep.
    { intros d Hd. apply matchPatterns_exact; [done|]. by eapply Hex. }
    split; [done|]. split; [|split; [|split; [|split]]].
    + intros d Hd. by apply elem_of_matchPatterns in Hd as [_ ?].
    + intros Hw d. split; [|by apply Hkeep].
      intros Hd. apply elem_of_matchPatterns in Hd as [_ (p & Hp & Hm)].
      rewrite Forall_forall in Hw.
      by rewrite <-(matchPattern_wildcardFree p d (Hw p Hp) Hm).
    + apply matchPatterns_NoDup.
    + apply matchPatterns_sublist.
    + intros Hw Hnd. by apply matchPatterns_plain.
Qed.
End Claims.

(** C4: with [includeDependencies], the expansion runs the round over the
    included nodes as many times as there are nodes, and the names included
    after it are those reached from the names first matched by following
    dependencies, as the matcher resolves them among the names of all
    nodes: every such name is included, is the name of a node returned, and
    no other name is included.  For [A] depending on [B], [C] alone and
    [runConfig.nodes = ["A"]], the nodes returned are [A] and [B], and [B]
    is still a dependency of [A]. *)
Theorem build_includes_dependencies :
  (∀ (ProjectConfig Body : Type)
     (adapter_build :
        ProjectConfig → Materialization Body → RunConfig → list ExecutionTask)
     (g : CompiledGraph ProjectConfig Body) (rc : RunConfig)
     (eg : ExecutionGraph ProjectConfig),
     includeDependencies rc = true → build adapter_build g rc = Done eg →
     let allNodes := translate adapter_build g rc in
     let allNodeNames := name <$> allNodes in
     let first := initialNames rc allNodeNames in
     ∃ includedNodeNames,
       includedNodeNames
       = (Nat.iter (length allNodes) (expandPass allNodes allNodeNames)
                   (first, includedOf allNodes first)).1
       ∧ eg_nodes eg
         = prune includedNodeNames <$> includedOf allNodes includedNodeNames
       ∧ (∀ x y, x ∈ first → rtc (selects allNodes) x y →
                 y ∈ includedNodeNames
                 ∧ ∃ node, node ∈ eg_nodes eg ∧ name node = y)
       ∧ (∀ y, y ∈ includedNodeNames →
               ∃ x, x ∈ first ∧ rtc (selects allNodes) x y))
  ∧ build sampleAdapter sampleGraph (runOf ["A"] true)
    = Done {| eg_projectConfig := tt;
              eg_runConfig := runOf ["A"] true;
              eg_nodes :=
                [ {| name := "A"; dependencies := ["B"];
                     tasks := [createTable "A"] |};
                  {| name := "B"; dependencies := [];
                     tasks := [createTable "B"] |} ] |}.
Proof.
  split; [|by vm_compute].
  intros ProjectConfig Body adapter_build g rc eg Hdeps H
         allNodes allNodeNames first.
  apply build_Done in H as (_ & _ & ->).
  pose proof (select_consistent allNodes rc) as Hc.
  pose proof (select_subseteq allNodes rc) as Hsub.
  unfold selected. fold allNodes. simpl.
  unfold select in *. fold allNodeNames first in Hc, Hsub |- *.
  rewrite Hdeps in *. unfold expand in *.
  set (st := Nat.iter (length allNodes) (expandPass allNodes allNodeNames)
                      (first, includedOf allNodes first)) in *.
  exists st.1. split; [done|].
  unfold consistent in Hc. rewrite Hc. split; [done|].
  assert (consistent allNodes (first, includedOf allNodes first)) as Hc0
    by done.
  assert (first ⊆ allNodeNames) as Hfirst by apply initialNames_subseteq.
  split.
  - intros x y Hx Hxy.
    assert (y ∈ st.1) as Hy.
    { eapply dependencyClosed_rtc; [|by apply (iter_expandPass_mono allNodes
        (length allNodes) _ Hc0)|done].
      by apply (expand_closed allNodes _ Hc0). }
    split; [done|].
    pose proof (Hsub _ Hy) as Hall.
    apply list_elem_of_fmap in Hall as (m & -> & Hm).
    exists (prune st.1 m). split; [|done].
    apply list_elem_of_fmap_2, elem_of_includedOf. by split.
  - intros y Hy.
    by apply (iter_expandPass_reached allNodes (length allNodes) _ y Hc0).
Qed.


(** * The store model computes what the value model computes *)

(** ** Reading the heap *)

Lemma read_app_l (h k : list (list string)) (a : addr) :
  a < length h → read (h ++ k) a = read h a.
Proof. intros H. unfold read. by rewrite lookup_app_l. Qed.

Lemma read_app_length (h k : list (list string)) (v : list string) :
  read (h ++ v :: k) (length h) = v.
Proof. unfold read. by rewrite list_lookup_middle. Qed.

Lemma read_prefix (h h' : list (list string)) (a : addr) :
  h `prefix_of` h' → a < length h → read h' a = read h a.
Proof. intros [k ->] H. by apply read_app_l. Qed.

Lemma nodeValue_prefix (h h' : list (list string)) (o : NodeObject) :
  h `prefix_of` h' → no_dependencies o < length h →
  nodeValue h' o = nodeValue h o.
Proof. intros Hp H. unfold nodeValue. by rewrite (read_prefix h h'). Qed.

Lemma nodeValues_prefix (h h' : list (list string)) (objs : list NodeObject) :
  h `prefix_of` h' → Forall (λ o, no_dependencies o < length h) objs →
  nodeValue h' <$> objs = nodeValue h <$> objs.
Proof.
  intros Hp Hall. apply list_fmap_ext. intros i o Ho.
  apply nodeValue_prefix; [done|].
  rewrite Forall_forall in Hall. apply Hall. by eapply list_elem_of_lookup_2.
Qed.

Lemma nodeValues_names (h : list (list string)) (objs : list NodeObject) :
  name <$> (nodeValue h <$> objs) = no_name <$> objs.
Proof. by rewrite <-list_fmap_compose. Qed.

Section StoreTranslation.

Context {ProjectConfig Body : Type}.
Context (adapter_build :
  ProjectConfig → Materialization Body → RunConfig → list ExecutionTask).

Lemma translateObjects_values (h : list (list string))
    (g : CompiledGraphObject ProjectConfig Body) (rc : RunConfigObject) :
  nodeValue h <$> translateObjects adapter_build h g rc
  = translate adapter_build (reifyGraph h g) (reifyRunConfig h rc).
Proof.
  unfold translateObjects, translate. simpl.
  rewrite !fmap_app, <-!list_fmap_compose. done.
Qed.

Lemma translateObjects_valid (h : list (list string))
    (g : CompiledGraphObject ProjectConfig Body) (rc : RunConfigObject) :
  validInput h g rc →
  Forall (λ o, no_dependencies o < length h)
         (translateObjects adapter_build h g rc).
Proof.
  intros (Hm & Ho & Ha & _). unfold translateObjects.
  rewrite !Forall_app, !Forall_fmap. split; [|split].
  - eapply Forall_impl; [done|]. by intros m (? & _).
  - eapply Forall_impl; [done|]. by intros o (? & _).
  - eapply Forall_impl; [done|]. by intros a (? & _).
Qed.

Lemma reifyGraph_prefix (h h' : list (list string))
    (g : CompiledGraphObject ProjectConfig Body) (rc : RunConfigObject) :
  h `prefix_of` h' → validInput h g rc →
  reifyGraph h' g = reifyGraph h g
  ∧ reifyRunConfig h' rc = reifyRunConfig h rc.
Proof.
  intros Hp (Hm & Ho & Ha & Hrc). split.
  - unfold reifyGraph. f_equal.
    + apply list_fmap_ext. intros i m Him.
      rewrite Forall_forall in Hm.
      destruct (Hm m) as (? & ? & ? & ?); [by eapply list_elem_of_lookup_2|].
      unfold reifyMaterialization. by rewrite !(read_prefix h h').
    + apply list_fmap_ext. intros i o Hio.
      rewrite Forall_forall in Ho.
      destruct (Ho o) as (? & ?); [by eapply list_elem_of_lookup_2|].
      unfold reifyOperation. by rewrite !(read_prefix h h').
    + apply list_fmap_ext. intros i a Hia.
      rewrite Forall_forall in Ha.
      destruct (Ha a) as (? & ?); [by eapply list_elem_of_lookup_2|].
      unfold reifyAssertion. by rewrite !(read_prefix h h').
  - unfold reifyRunConfig. f_equal.
    destruct (ro_nodes rc) as [a|]; [|done]. simpl.
    by rewrite (read_prefix h h') by auto.
Qed.

Lemma validInput_prefix (h h' : list (list string))
    (g : CompiledGraphObject ProjectConfig Body) (rc : RunConfigObject) :
  h `prefix_of` h' → validInput h g rc → validInput h' g rc.
Proof.
  intros Hp (Hm & Ho & Ha & Hrc). apply prefix_length in Hp.
  split; [|split; [|split]].
  - eapply Forall_impl; [done|]. intros m (? & ? & ? & ?).
    unfold validMaterialization. lia.
  - eapply Forall_impl; [done|]. intros o (? & ?).
    unfold validOperation. lia.
  - eapply Forall_impl; [done|]. intros a (? & ?).
    unfold validAssertion. lia.
  - intros a Ha'. specialize (Hrc a Ha'). lia.
Qed.

End StoreTranslation.


(** ** Selection on the store *)

Lemma nodeName_middle (pre suf : list ExecutionNode) (x : ExecutionNode) :
  nodeName (pre ++ x :: suf) (length pre) = name x.
Proof. unfold nodeName. by rewrite list_lookup_middle. Qed.

Lemma idsOf_included_from (names : list string)
    (pre suf : list ExecutionNode) :
  Forall2 (λ i n, (pre ++ suf) !! i = Some n)
          (filter (λ i, nodeName (pre ++ suf) i ∈ names)
                  (seq (length pre) (length suf)))
          (filter (λ n, name n ∈ names) suf).
Proof.
  revert pre. induction suf as [|x suf IH]; intros pre; [constructor|].
  specialize (IH (pre ++ [x])).
  rewrite <-app_assoc, length_app, Nat.add_1_r in IH. simpl in IH.
  simpl. rewrite !filter_cons, nodeName_middle.
  destruct (decide (name x ∈ names)); [|done].
  constructor; [|done]. by rewrite list_lookup_middle.
Qed.

(** The positions kept and the nodes kept go together. *)
Lemma idsOf_included (allNodes : list ExecutionNode) (names : list string) :
  Forall2 (λ i n, allNodes !! i = Some n)
          (idsOf allNodes names) (includedOf allNodes names).
Proof. apply (idsOf_included_from names [] allNodes). Qed.

Lemma idsOf_NoDup (allNodes : list ExecutionNode) (names : list string) :
  NoDup (idsOf allNodes names).
Proof. apply NoDup_filter, NoDup_seq. Qed.

Lemma idsOf_lt (allNodes : list ExecutionNode) (names : list string) i :
  i ∈ idsOf allNodes names → i < length allNodes.
Proof.
  unfold idsOf. rewrite list_elem_of_filter, elem_of_seq. lia.
Qed.

Section SelectionOnStore.

Context (h : list (list string)) (objs : list NodeObject).
Context (Hvalid : Forall (λ o, no_dependencies o < length h) objs).
Context (included : addr).

Local Abbreviation allNodes := (nodeValue h <$> objs).
Local Abbreviation allNodeNames := (no_name <$> objs).
Local Abbreviation agrees' := (agrees h objs included).

Lemma agrees_prefix s names : agrees' s names → h `prefix_of` arrays s.
Proof. intros (_ & [(_ & _ & ->)|(_ & ->)]); by apply prefix_app_r. Qed.

Lemma agrees_allNodeNames s names :
  agrees' s names → read (arrays s) (length h) = allNodeNames.
Proof. intros (_ & [(_ & _ & ->)|(_ & ->)]); apply read_app_length. Qed.

Lemma agrees_included s names :
  agrees' s names → read (arrays s) included = names.
Proof.
  intros (_ & [(-> & -> & ->)|(-> & ->)]); [apply read_app_length|].
  unfold read. rewrite lookup_app_r by lia.
  by replace (S (length h) - length h) with 1 by lia.
Qed.

Lemma agrees_values s names :
  agrees' s names → nodeValue (arrays s) <$> objects s = allNodes.
Proof.
  intros H. pose proof (agrees_prefix _ _ H) as Hp. destruct H as (-> & _).
  by apply nodeValues_prefix.
Qed.

Lemma agrees_includedObjects s names :
  agrees' s names → includedObjects included s = idsOf allNodes names.
Proof.
  intros H. unfold includedObjects, idsOf.
  rewrite (agrees_values _ _ H), (agrees_included _ _ H).
  destruct H as (-> & _). by rewrite length_fmap.
Qed.

Lemma agrees_pushNew s names x :
  x ∈ allNodeNames → agrees' s names →
  agrees' (pushNewObject included s x) (pushNew names x).
Proof.
  intros Hx H. unfold pushNewObject, pushNew.
  rewrite (agrees_included _ _ H).
  case_bool_decide as Hin; [done|].
  destruct H as (Hobjs & [(-> & -> & Harr)|(-> & Harr)]); [done|].
  split; [done|]. right. split; [done|]. simpl. rewrite Harr.
  replace (S (length h)) with (length h + 1) by lia.
  by rewrite alter_app_r.
Qed.

Lemma agrees_foldl_pushNew l s names :
  l ⊆ allNodeNames → agrees' s names →
  agrees' (foldl (pushNewObject included) s l) (foldl pushNew names l).
Proof.
  revert s names. induction l as [|x l IH]; intros s names Hl H; [done|].
  simpl. apply IH.
  - intros y Hy. apply Hl. by right.
  - apply agrees_pushNew; [|done]. apply Hl. by left.
Qed.

Lemma agrees_matching s names i n :
  agrees' s names → allNodes !! i = Some n →
  matchingNodeNamesObject (length h) s i
  = matchingNodeNames (name <$> allNodes) n.
Proof.
  intros H Hn. unfold matchingNodeNamesObject, matchingNodeNames.
  rewrite <-list_lookup_fmap.
  rewrite (agrees_values _ _ H), Hn, (agrees_allNodeNames _ _ H).
  by rewrite nodeValues_names.
Qed.

Local Abbreviation related := (related h objs included).

Lemma related_expandNode st sp i n :
  agrees' st.1 sp.1 → allNodes !! i = Some n →
  related (expandNodeObject (length h) included st i)
          (expandNode allNodes (name <$> allNodes) sp n).
Proof.
  intros H Hn. unfold expandNodeObject, expandNode.
  rewrite (agrees_matching _ _ _ _ H Hn).
  assert (agrees' (foldl (pushNewObject included) st.1
                         (matchingNodeNames (name <$> allNodes) n))
                  (foldl pushNew sp.1
                         (matchingNodeNames (name <$> allNodes) n))) as H'.
  { apply agrees_foldl_pushNew; [|done].
    rewrite matchingNodeNames_eq, <-(nodeValues_names h).
    apply matchPatterns_subseteq. }
  split; [done|]. split; [|done]. simpl. by apply agrees_includedObjects.
Qed.

Lemma related_expandNodes ids nodes st sp :
  Forall2 (λ i n, allNodes !! i = Some n) ids nodes → related st sp →
  related (foldl (expandNodeObject (length h) included) st ids)
          (foldl (expandNode allNodes (name <$> allNodes)) sp nodes).
Proof.
  intros Hids. revert st sp.
  induction Hids as [|i n ids nodes Hn _ IH]; intros st sp H; [done|].
  simpl. apply IH. apply related_expandNode; [|done]. by destruct H.
Qed.

Lemma related_expandPass st sp :
  related st sp →
  related (expandPassObject (length h) included st)
          (expandPass allNodes (name <$> allNodes) sp).
Proof.
  intros H. unfold expandPassObject, expandPass.
  apply related_expandNodes; [|done].
  destruct H as (_ & -> & ->). apply idsOf_included.
Qed.

Lemma related_iter k st sp :
  related st sp →
  related (Nat.iter k (expandPassObject (length h) included) st)
          (Nat.iter k (expandPass allNodes (name <$> allNodes)) sp).
Proof.
  intros H. induction k as [|k IH]; [done|]. simpl.
  by apply related_expandPass.
Qed.

Lemma related_expand st sp :
  related st sp →
  related (expandObject (length h) included st)
          (expand allNodes (name <$> allNodes) sp).
Proof.
  intros H. unfold expandObject, expand.
  destruct H as (Hag & Hids & Hnodes).
  destruct (Hag) as (-> & _). rewrite length_fmap.
  by apply related_iter.
Qed.

End SelectionOnStore.


(** ** Pruning on the store *)

Lemma view_prefix (s s' : store) (i : nat) :
  arrays s `prefix_of` arrays s' → objects s' !! i = objects s !! i →
  validObjects s → view s' i = view s i.
Proof.
  intros Hp Hobj Hv. unfold view. rewrite Hobj.
  destruct (objects s !! i) as [o|] eqn:Ho; [|done]. simpl. f_equal.
  apply nodeValue_prefix; [done|]. by eapply Hv.
Qed.

(** Pruning a node allocates the pruned list and makes it the
    [dependencies] of the node; nothing else changes. *)
Lemma pruneObject_Some (included : addr) (s : store) (i : nat) (o : NodeObject) :
  objects s !! i = Some o → validObjects s → included < length (arrays s) →
  let s' := pruneObject included s i in
  arrays s' = arrays s
              ++ [matchPatterns (read (arrays s) (no_dependencies o))
                                (read (arrays s) included)]
  ∧ validObjects s'
  ∧ (∀ j, j ≠ i → objects s' !! j = objects s !! j)
  ∧ objects s' !! i = Some {| no_name := no_name o;
                              no_dependencies := length (arrays s);
                              no_tasks := no_tasks o |}
  ∧ view s' i = Some (prune (read (arrays s) included)
                            (nodeValue (arrays s) o)).
Proof.
  intros Ho Hv Hinc. unfold pruneObject. rewrite Ho. simpl.
  split; [done|].
  assert (∀ j, j ≠ i →
    alter (λ n, {| no_name := no_name n;
                   no_dependencies := length (arrays s);
                   no_tasks := no_tasks n |}) i (objects s) !! j
    = objects s !! j) as Hne.
  { intros j Hj. by apply list_lookup_alter_ne. }
  assert (alter (λ n, {| no_name := no_name n;
                         no_dependencies := length (arrays s);
                         no_tasks := no_tasks n |}) i (objects s) !! i
          = Some {| no_name := no_name o;
                    no_dependencies := length (arrays s);
                    no_tasks := no_tasks o |}) as Heq.
  { by rewrite list_lookup_alter_eq, Ho. }
  split; [|split; [done|split; [done|]]].
  - intros j o' Ho'. simpl in *. rewrite length_app. simpl.
    destruct (decide (j = i)) as [->|Hj].
    + rewrite Heq in Ho'. simplify_eq. simpl. lia.
    + rewrite Hne in Ho' by done. specialize (Hv j o' Ho'). lia.
  - unfold view. simpl. rewrite Heq. simpl. f_equal.
    unfold nodeValue, prune. simpl. f_equal.
    apply (read_app_length (arrays s) []).
Qed.

Lemma foldl_pruneObject (included : addr) (l : list nat) (s : store) :
  NoDup l → validObjects s → included < length (arrays s) →
  let s' := foldl (pruneObject included) s l in
  arrays s `prefix_of` arrays s'
  ∧ validObjects s'
  ∧ (∀ j, j ∉ l → objects s' !! j = objects s !! j)
  ∧ (∀ i, i ∈ l →
       view s' i = prune (read (arrays s) included) <$> view s i)
  ∧ (∀ i o, i ∈ l → objects s' !! i = Some o →
       length (arrays s) ≤ no_dependencies o).
Proof.
  revert s. induction l as [|i l IH]; intros s Hnd Hv Hinc; simpl.
  { split; [done|]. split; [done|]. split; [done|].
    split; [intros i Hi|intros i o Hi]; by apply not_elem_of_nil in Hi. }
  apply NoDup_cons in Hnd as [Hi Hnd].
  destruct (objects s !! i) as [o|] eqn:Ho.
  - destruct (pruneObject_Some included s i o Ho Hv Hinc)
      as (Harr & Hv1 & Hne & Heq & Hview).
    set (s1 := pruneObject included s i) in *.
    assert (arrays s `prefix_of` arrays s1) as Hp1.
    { rewrite Harr. by apply prefix_app_r. }
    assert (included < length (arrays s1)) as Hinc1.
    { apply prefix_length in Hp1. lia. }
    destruct (IH s1 Hnd Hv1 Hinc1) as (Hp & Hv' & Hout & Hin & Hfresh).
    set (s' := foldl (pruneObject included) s1 l) in *.
    split; [by etrans|]. split; [done|]. split; [|split].
    + intros j Hj. apply not_elem_of_cons in Hj as [Hji Hjl].
      rewrite Hout by done. by apply Hne.
    + intros j Hj. apply elem_of_cons in Hj as [->|Hj].
      * rewrite (view_prefix s1 s') by (done || by apply Hout).
        rewrite Hview. unfold view. by rewrite Ho.
      * rewrite Hin by done. rewrite (read_prefix _ _ _ Hp1 Hinc).
        f_equal. apply view_prefix; [done| |done].
        apply Hne. intros ->. done.
    + intros j o' Hj Ho'. apply elem_of_cons in Hj as [->|Hj].
      * rewrite Hout, Heq in Ho' by done. by simplify_eq.
      * specialize (Hfresh j o' Hj Ho'). apply prefix_length in Hp1. lia.
  - assert (pruneObject included s i = s) as ->.
    { unfold pruneObject. by rewrite Ho. }
    destruct (IH s Hnd Hv Hinc) as (Hp & Hv' & Hout & Hin & Hfresh).
    split; [done|]. split; [done|]. split; [|split].
    + intros j Hj. apply not_elem_of_cons in Hj as [_ Hjl]. by apply Hout.
    + intros j Hj. apply elem_of_cons in Hj as [->|Hj]; [|by apply Hin].
      unfold view. rewrite Hout by done. by rewrite Ho.
    + intros j o' Hj Ho'. apply elem_of_cons in Hj as [->|Hj].
      * rewrite Hout, Ho in Ho' by done. done.
      * by eapply Hfresh.
Qed.

Lemma omap_Forall2 {A B : Type} (f : A → option B) (l : list A) (k : list B) :
  Forall2 (λ x y, f x = Some y) l k → omap f l = k.
Proof.
  induction 1 as [|x y l k Hxy _ IH]; [done|].
  simpl. rewrite Hxy. f_equal. exact IH.
Qed.

Lemma Forall2_impl_elem {A B : Type} (P Q : A → B → Prop) (l : list A)
    (k : list B) :
  Forall2 P l k → (∀ x y, x ∈ l → P x y → Q x y) → Forall2 Q l k.
Proof.
  induction 1 as [|x y l k Hxy _ IH]; intros H; constructor.
  - apply H; [by left|done].
  - apply IH. intros x' y' Hx'. apply H. by right.
Qed.


(** ** [build] on the store *)

Section Refinement.

Context {ProjectConfig Body : Type}.
Context (adapter_build :
  ProjectConfig → Materialization Body → RunConfig → list ExecutionTask).
Context (h : list (list string)).
Context (g : CompiledGraphObject ProjectConfig Body) (rc : RunConfigObject).
Context (Hval : validInput h g rc).

Local Abbreviation objs := (translateObjects adapter_build h g rc).
Local Abbreviation allNodes :=
  (translate adapter_build (reifyGraph h g) (reifyRunConfig h rc)).
Local Abbreviation s1 :=
  {| arrays := h ++ [no_name <$> objs]; objects := objs |}.

Lemma store_values : nodeValue (arrays s1) <$> objects s1 = allNodes.
Proof.
  simpl. rewrite <-translateObjects_values.
  apply nodeValues_prefix; [by apply prefix_app_r|].
  by apply translateObjects_valid.
Qed.

Lemma store_names : no_name <$> objs = name <$> allNodes.
Proof. by rewrite <-translateObjects_values, nodeValues_names. Qed.

Lemma validateObject_spec :
  validateObject (length h) s1
  = (checkDependenciesExist allNodes (name <$> allNodes) ;;
     checkAllCircular allNodes (nodeNameMap allNodes) (S (length allNodes))).
Proof.
  unfold validateObject. rewrite store_values.
  replace (read (arrays s1) (length h)) with (name <$> allNodes); [done|].
  simpl. by rewrite read_app_length, store_names.
Qed.

Lemma initialNamesObject_spec :
  agrees h objs (initialNamesObject (length h) rc s1).1
         (initialNamesObject (length h) rc s1).2
         (initialNames (reifyRunConfig h rc) (name <$> allNodes)).
Proof.
  destruct Hval as (_ & _ & _ & Hrc).
  unfold initialNamesObject, initialNames. simpl.
  destruct (ro_nodes rc) as [a|]; simpl.
  - rewrite read_app_l by auto.
    destruct (read h a) as [|p ps] eqn:Ha.
    + split; [done|]. left. by rewrite store_names.
    + simpl. split; [done|]. right. rewrite length_app. simpl.
      split; [lia|]. rewrite <-app_assoc. simpl.
      by rewrite read_app_length, store_names.
  - split; [done|]. left. by rewrite store_names.
Qed.

Lemma selectObject_spec :
  related h objs (selectObject (length h) rc s1).1
          (selectObject (length h) rc s1).2
          (select allNodes (reifyRunConfig h rc)).
Proof.
  pose proof (translateObjects_valid adapter_build h g rc Hval) as Hobjs.
  pose proof initialNamesObject_spec as Hag.
  unfold selectObject, select.
  destruct (initialNamesObject (length h) rc s1) as [included s'].
  simpl in Hag. simpl.
  rewrite <-(translateObjects_values adapter_build h g rc) in *.
  assert (related h objs included (s', includedObjects included s')
            (initialNames (reifyRunConfig h rc)
                          (name <$> (nodeValue h <$> objs)),
             includedOf (nodeValue h <$> objs)
               (initialNames (reifyRunConfig h rc)
                             (name <$> (nodeValue h <$> objs))))) as H0.
  { split; [done|]. split; [|done]. simpl. by apply agrees_includedObjects. }
  destruct (ro_includeDependencies rc); [|done].
  by apply related_expand.
Qed.

Lemma agrees_included_lt included s names :
  agrees h objs included s names → included < length (arrays s).
Proof.
  intros (_ & [(-> & _ & ->)|(-> & ->)]); rewrite length_app; simpl; lia.
Qed.

(** [build] on the store returns the value that [build] computes from the
    value of its input, and leaves the heap it was given as it was: the
    arrays it writes are new. *)
Lemma buildObject_spec :
  outcomeValue (buildObject adapter_build h g rc)
  = build adapter_build (reifyGraph h g) (reifyRunConfig h rc)
  ∧ ∀ s eg, buildObject adapter_build h g rc = Done (s, eg) →
      h `prefix_of` arrays s
      ∧ ego_runConfig eg = rc
      ∧ NoDup (ego_nodes eg)
      ∧ ∀ i o, i ∈ ego_nodes eg → objects s !! i = Some o →
               length h ≤ no_dependencies o.
Proof.
  pose proof (translateObjects_valid adapter_build h g rc Hval) as Hobjs.
  pose proof selectObject_spec as (Hag & Hids & Hnodes).
  unfold buildObject, build. unfold alloc. cbn [arrays objects].
  rewrite validateObject_spec.
  set (sel := selectObject (length h) rc s1) in *.
  set (sp := select allNodes (reifyRunConfig h rc)) in *.
  pose proof (agrees_prefix _ _ _ _ _ Hag) as Hp.
  assert (validObjects sel.2.1) as Hv.
  { intros j o Ho. destruct Hag as (Hobj & _). rewrite Hobj in Ho.
    rewrite Forall_forall in Hobjs.
    pose proof (Hobjs o (list_elem_of_lookup_2 _ _ _ Ho)) as Hlt.
    apply prefix_length in Hp. lia. }
  pose proof (agrees_included_lt _ _ _ Hag) as Hinc.
  assert (NoDup sel.2.2) as Hnd by (rewrite Hids; apply idsOf_NoDup).
  destruct (foldl_pruneObject sel.1 sel.2.2 sel.2.1 Hnd Hv Hinc)
    as (Hp3 & Hv3 & Hout & Hin & Hfresh).
  set (s3 := foldl (pruneObject sel.1) sel.2.1 sel.2.2) in *.
  destruct (checkDependenciesExist allNodes (name <$> allNodes))
    as [[]|e|]; simpl; [|done|done].
  destruct (checkAllCircular allNodes (nodeNameMap allNodes)
              (S (length allNodes))) as [[]|e|]; simpl; [|done|done].
  split.
  - f_equal. unfold graphValue. simpl. f_equal.
    + eapply reifyGraph_prefix; [|done]. by etrans.
    + apply omap_Forall2, Forall2_fmap_r.
      rewrite Hids, Hnodes.
      eapply Forall2_impl_elem; [apply idsOf_included|].
      intros i n Hi Hn. simpl.
      rewrite Hids in Hin. rewrite (Hin i Hi).
      rewrite (agrees_included _ _ _ _ _ Hag).
      unfold view. rewrite <-list_lookup_fmap.
      rewrite (agrees_values _ _ Hobjs _ _ _ Hag).
      by rewrite Hn.
  - intros s eg Heq. simplify_eq. simpl.
    split; [by etrans|]. split; [done|]. split; [done|].
    intros i o Hi Ho. specialize (Hfresh i o Hi Ho).
    apply prefix_length in Hp. lia.
Qed.

End Refinement.


Section StoreClaims.

Context {ProjectConfig Body : Type}.
Context (adapter_build :
  ProjectConfig → Materialization Body → RunConfig → list ExecutionTask).

(** C7: [build] is deterministic.  Two calls on inputs of the same value,
    whatever the heaps and the addresses at which they are laid out, throw
    the same error or return graphs of the same value (the same nodes in the
    same order, with the same tasks and the same pruned dependencies); and a
    second call on the very objects of a first call, in the heap that the
    first call left, returns what the first call returned. *)
Theorem build_deterministic (h1 h2 : list (list string))
    (g1 g2 : CompiledGraphObject ProjectConfig Body)
    (rc1 rc2 : RunConfigObject) :
  validInput h1 g1 rc1 → validInput h2 g2 rc2 →
  reifyGraph h1 g1 = reifyGraph h2 g2 →
  reifyRunConfig h1 rc1 = reifyRunConfig h2 rc2 →
  outcomeValue (buildObject adapter_build h1 g1 rc1)
  = outcomeValue (buildObject adapter_build h2 g2 rc2)
  ∧ ∀ s eg, buildObject adapter_build h1 g1 rc1 = Done (s, eg) →
      outcomeValue (buildObject adapter_build (arrays s) g1 rc1)
      = Done (graphValue (s, eg)).
Proof.
  intros Hv1 Hv2 Hg Hrc.
  destruct (buildObject_spec adapter_build h1 g1 rc1 Hv1) as [H1 Hframe].
  destruct (buildObject_spec adapter_build h2 g2 rc2 Hv2) as [H2 _].
  split; [by rewrite H1, H2, Hg, Hrc|].
  intros s eg Hs. destruct (Hframe s eg Hs) as (Hp & _).
  pose proof (validInput_prefix _ _ _ _ Hp Hv1) as Hv.
  destruct (buildObject_spec adapter_build (arrays s) g1 rc1 Hv) as [H3 _].
  destruct (reifyGraph_prefix _ _ _ _ Hp Hv1) as [Hg' Hrc'].
  rewrite H3, Hg', Hrc', <-H1, Hs. done.
Qed.

(** C8: [build] leaves its input as it was.  Every array of the heap at
    the time of the call has the same contents when [build] returns, so
    that the names, the dependencies and the statements or queries of every
    materialization, operation and assertion, and the run configuration,
    read the same before and after.  A node object is created with the
    dependencies array of its entity; pruning gives each node returned an
    array allocated by [build] and writes no array of the input. *)
Theorem build_preserves_input (h : list (list string))
    (g : CompiledGraphObject ProjectConfig Body) (rc : RunConfigObject)
    (s : store) (eg : ExecutionGraphObject ProjectConfig) :
  validInput h g rc → buildObject adapter_build h g rc = Done (s, eg) →
  (∀ a v, h !! a = Some v → arrays s !! a = Some v)
  ∧ reifyGraph (arrays s) g = reifyGraph h g
  ∧ reifyRunConfig (arrays s) rc = reifyRunConfig h rc
  ∧ no_dependencies <$> translateObjects adapter_build h g rc
    = (mo_dependencies <$> go_materializations g)
      ++ (oo_dependencies <$> go_operations g)
      ++ (ao_dependencies <$> go_assertions g)
  ∧ ∀ i o, i ∈ ego_nodes eg → objects s !! i = Some o →
           length h ≤ no_dependencies o.
Proof.
  intros Hv Hs.
  destruct (buildObject_spec adapter_build h g rc Hv) as [_ Hframe].
  destruct (Hframe s eg Hs) as (Hp & _ & _ & Hfresh).
  destruct (reifyGraph_prefix _ _ _ _ Hp Hv) as [Hg Hrc].
  split; [|split; [done|split; [done|split; [|done]]]].
  - intros a v Ha. by eapply prefix_lookup_Some.
  - unfold translateObjects. by rewrite !fmap_app, <-!list_fmap_compose.
Qed.

End StoreClaims.


(** ** The kinds of the tasks of a materialization *)

(** C5: on a materialization with a pre, a post and an assertion of its
    own, translation gives one node with the name and dependencies of the
    entity and, in order, the task of the pre, the task of the adapter,
    the task of the post and the assertion task.  The tasks of the pre and
    of the post are created without a [type] field: they are not statement
    tasks, whereas the task that [buildOperation] creates for a statement
    is one. *)
Theorem translate_pre_post_untyped :
  translate sampleAdapter stepsGraph (runOf [] false)
  = [ {| name := "A"; dependencies := [];
         tasks := [ {| type := None; statement := "set x" |};
                    createTable "A";
                    {| type := None; statement := "drop y" |};
                    {| type := Some "assertion"; statement := "select 1" |} ] |};
      {| name := "O"; dependencies := [];
         tasks := [ {| type := Some "statement"; statement := "run" |} ] |} ]
  ∧ untypedTask "set x" {| type := None; statement := "set x" |}
  ∧ ¬ statementTask "set x" {| type := None; statement := "set x" |}
  ∧ untypedTask "drop y" {| type := None; statement := "drop y" |}
  ∧ ¬ statementTask "drop y" {| type := None; statement := "drop y" |}
  ∧ statementTask "run" {| type := Some "statement"; statement := "run" |}
  ∧ assertionTask "select 1"
      {| type := Some "assertion"; statement := "select 1" |}.
Proof.
  split; [vm_compute; reflexivity|].
  repeat split; try done; by intros [? _].
Qed.

(** A task without a [type] field is never a statement task. *)
Lemma untypedTask_not_statementTask (s : string) (t : ExecutionTask) :
  untypedTask s t → ¬ statementTask s t.
Proof. intros [Hnone _] [Hsome _]. congruence. Qed.
(** * The claims on the sample project *)

Lemma sampleGraph_dependenciesExist (rc : RunConfig) :
  dependenciesExist (translate sampleAdapter sampleGraph rc).
Proof. apply checkDependenciesExist_Done. vm_compute. reflexivity. Defined.

Lemma sampleGraph_acyclic (rc : RunConfig) :
  ¬ hasCycle (translate sampleAdapter sampleGraph rc).
Proof.
  apply (checkAllCircular_Done _ 4). vm_compute. reflexivity.
Defined.

Lemma build_no_dangling_witness :
  build sampleAdapter sampleGraph (runOf ["A"] true) = Done sampleExpanded
  ∧ ∀ node d, node ∈ eg_nodes sampleExpanded → d ∈ dependencies node →
              ∃ node', node' ∈ eg_nodes sampleExpanded ∧ name node' = d.
Proof.
  split; [vm_compute; reflexivity|].
  apply (build_no_dangling sampleAdapter sampleGraph (runOf ["A"] true)).
  vm_compute. reflexivity.
Defined.


Lemma build_throws_iff_validation_fails_witness :
  ¬ dependenciesExist (translate sampleAdapter danglingGraph (runOf [] false))
  ∧ ∃ node d,
      build sampleAdapter danglingGraph (runOf [] false)
      = Throw (MissingDependency (name node) d).
Proof.
  assert (¬ dependenciesExist
              (translate sampleAdapter danglingGraph (runOf [] false))) as H.
  { intros H. apply checkDependenciesExist_Done in H. vm_compute in H.
    discriminate H. }
  split; [exact H|].
  destruct (proj1 (proj2 (build_throws_iff_validation_fails sampleAdapter
                            danglingGraph (runOf [] false))) H)
    as (node & d & _ & _ & _ & Hb & _).
  exists node, d. exact Hb.
Defined.

Lemma build_includes_dependencies_witness :
  includeDependencies (runOf ["A"] true) = true
  ∧ build sampleAdapter sampleGraph (runOf ["A"] true) = Done sampleExpanded
  ∧ ∃ node, node ∈ eg_nodes sampleExpanded ∧ name node = "B".
Proof.
  split; [reflexivity|]. split; [vm_compute; reflexivity|].
  destruct (proj1 build_includes_dependencies unit unit sampleAdapter
              sampleGraph (runOf ["A"] true) sampleExpanded eq_refl)
    as (names & _ & _ & Hreach & _); [vm_compute; reflexivity|].
  apply (Hreach "A" "B").
  - vm_compute. repeat constructor.
  - apply rtc_once. exists {| name := "A"; dependencies := ["B"]; tasks := [createTable "A"] |}.
    split; [vm_compute; repeat constructor|]. split; [reflexivity|].
    vm_compute. repeat constructor.
Defined.

Lemma translate_complete_witness :
  materializations sampleGraph !! 0 = Some (mat "A" ["B"])
  ∧ ∃ node, translate sampleAdapter sampleGraph (runOf [] false) !! 0
            = Some node
            ∧ name node = "A" ∧ dependencies node = ["B"]
            ∧ tasks node = [createTable "A"].
Proof.
  split; [reflexivity|].
  destruct (proj1 (proj2 (proj2 (translate_complete sampleAdapter sampleGraph
                                   (runOf [] false))))
              0 (mat "A" ["B"]) eq_refl)
    as (node & preTasks & postTasks & assertionTasks & Hnode & Hname & Hdeps
        & Htasks & Hpre & Hpost & Hassert & _).
  exists node. split; [exact Hnode|]. split; [exact Hname|].
  split; [exact Hdeps|].
  rewrite Htasks, Hpre, Hpost, Hassert. reflexivity.
Defined.

Lemma repeatedGraph_dependenciesExist :
  dependenciesExist (translate sampleAdapter repeatedGraph (runOf [] false)).
Proof. apply checkDependenciesExist_Done. vm_compute. reflexivity. Defined.

Lemma repeatedGraph_acyclic :
  ¬ hasCycle (translate sampleAdapter repeatedGraph (runOf [] false)).
Proof. apply (checkAllCircular_Done _ 4). vm_compute. reflexivity. Defined.

Lemma build_default_selection_witness :
  dependenciesExist (translate sampleAdapter repeatedGraph (runOf [] false))
  ∧ ¬ hasCycle (translate sampleAdapter repeatedGraph (runOf [] false))
  ∧ ∃ eg, build sampleAdapter repeatedGraph (runOf [] false) = Done eg
          ∧ name <$> eg_nodes eg = ["A"; "B"; "C"]
          ∧ eg_nodes eg
            = prune (name <$> translate sampleAdapter repeatedGraph
                                        (runOf [] false))
                <$> translate sampleAdapter repeatedGraph (runOf [] false).
Proof.
  split; [exact repeatedGraph_dependenciesExist|].
  split; [exact repeatedGraph_acyclic|].
  destruct (build_default_selection sampleAdapter repeatedGraph
              (runOf [] false)
              repeatedGraph_dependenciesExist repeatedGraph_acyclic
              (or_intror eq_refl) eq_refl)
    as (eg & Hb & Hnames & Hnodes & _).
  exists eg. split; [exact Hb|]. split; [exact Hnames|exact Hnodes].
Defined.

Lemma checkCircular_terminates_witness :
  length (translate sampleAdapter circularGraph (runOf [] false)) < 4 + 0
  ∧ checkCircular (translate sampleAdapter circularGraph (runOf [] false))
      (nodeNameMap (translate sampleAdapter circularGraph (runOf [] false)))
      4 0 []
    ≠ OutOfFuel.
Proof.
  split; [vm_compute; lia|].
  apply (checkCircular_terminates
           (translate sampleAdapter circularGraph (runOf [] false)) 4 0 []).
  - apply NoDup_nil_2.
  - intros x Hx. inversion Hx.
  - vm_compute. lia.
Defined.

Lemma name_collision_shadowing_witness :
  {| a_name := "A"; a_dependencies := []; queries := ["select 1"] |}
    ∈ assertions collidingGraph
  ∧ (∃ j, nodeNameMap (translate sampleAdapter collidingGraph
                                 (runOf ["A"] false))
            !! "A" = Some j
          ∧ 1 ≤ j)
  ∧ dependenciesExist (translate sampleAdapter collidingGraph
                                 (runOf ["A"] false))
  ∧ ¬ hasCycle (translate sampleAdapter collidingGraph (runOf ["A"] false))
  ∧ ∃ eg, build sampleAdapter collidingGraph (runOf ["A"] false) = Done eg
          ∧ named "A" (eg_nodes eg) = 2.
Proof.
  assert ({| a_name := "A"; a_dependencies := []; queries := ["select 1"] |}
            ∈ assertions collidingGraph) as H by (vm_compute; constructor).
  assert (dependenciesExist (translate sampleAdapter collidingGraph
                                       (runOf ["A"] false))) as Hex.
  { apply checkDependenciesExist_Done. vm_compute. reflexivity. }
  destruct (name_collision_shadowing sampleAdapter collidingGraph
              (runOf ["A"] false))
    as (_ & Hassert & _ & _ & _ & _ & _ & _ & Hcycle & Hselected & Hbuilt & _).
  split; [exact H|]. split; [exact (Hassert _ H)|]. split; [exact Hex|].
  split.
  - intros Hcyc. apply (proj2 (Hcycle Hex)) in Hcyc as (chain & node & Hc).
    rewrite Hbuilt in Hc. discriminate Hc.
  - eexists. split; [exact Hbuilt|].
    rewrite (Hselected _ "A" Hbuilt).
    + vm_compute. reflexivity.
    + right. right. exists ["A"], "A".
      split; [reflexivity|]. split; [constructor|reflexivity].
Defined.

Lemma sampleHeap_valid : validInput sampleHeap sampleGraphObject sampleRunObject.
Proof.
  split; [|split; [|split]].
  - repeat constructor; vm_compute; lia.
  - constructor.
  - constructor.
  - intros a [= <-]. vm_compute. lia.
Defined.

Lemma otherHeap_valid : validInput otherHeap otherGraphObject otherRunObject.
Proof.
  split; [|split; [|split]].
  - repeat constructor; vm_compute; lia.
  - constructor.
  - constructor.
  - intros a [= <-]. vm_compute. lia.
Defined.

Lemma build_deterministic_witness :
  reifyGraph sampleHeap sampleGraphObject = reifyGraph otherHeap otherGraphObject
  ∧ reifyRunConfig sampleHeap sampleRunObject
    = reifyRunConfig otherHeap otherRunObject
  ∧ outcomeValue (buildObject sampleAdapter sampleHeap sampleGraphObject
                              sampleRunObject)
    = outcomeValue (buildObject sampleAdapter otherHeap otherGraphObject
                                otherRunObject).
Proof.
  split; [reflexivity|]. split; [reflexivity|].
  apply (proj1 (build_deterministic sampleAdapter sampleHeap otherHeap
                  sampleGraphObject otherGraphObject sampleRunObject
                  otherRunObject sampleHeap_valid otherHeap_valid
                  eq_refl eq_refl)).
Defined.

(** On the sample, [build] allocates four arrays after the four of the
    input: [allNodeNames], [includedNodeNames] and the pruned dependencies
    of [A] and [B]; the nodes of [A] and [B] point to the last two. *)
Example buildObject_sample :
  buildObject sampleAdapter sampleHeap sampleGraphObject sampleRunObject
  = Done ({| arrays := sampleHeap ++ [["A"; "B"; "C"]; ["A"; "B"]; ["B"]; []];
             objects :=
               [ {| no_name := "A"; no_dependencies := 6;
                    no_tasks := [createTable "A"] |};
                 {| no_name := "B"; no_dependencies := 7;
                    no_tasks := [createTable "B"] |};
                 {| no_name := "C"; no_dependencies := 2;
                    no_tasks := [createTable "C"] |} ] |},
          {| ego_projectConfig := tt;
             ego_runConfig := sampleRunObject;
             ego_nodes := [0; 1] |}).
Proof. vm_compute. reflexivity. Qed.

Lemma build_preserves_input_witness :
  ∃ s eg,
    buildObject sampleAdapter sampleHeap sampleGraphObject sampleRunObject
    = Done (s, eg)
    ∧ reifyGraph (arrays s) sampleGraphObject
      = reifyGraph sampleHeap sampleGraphObject
    ∧ ∀ a v, sampleHeap !! a = Some v → arrays s !! a = Some v.
Proof.
  eexists _, _. split; [vm_compute; reflexivity|].
  match goal with
  | |- reifyGraph (arrays ?s) _ = _ ∧ _ =>
      destruct (build_preserves_input sampleAdapter sampleHeap
                  sampleGraphObject sampleRunObject s
                  {| ego_projectConfig := tt;
                     ego_runConfig := sampleRunObject;
                     ego_nodes := [0; 1] |}
                  sampleHeap_valid)
        as (Harr & Hg & _); [vm_compute; reflexivity|]
  end.
  split; [exact Hg|exact Harr].
Defined.

(** A name borne by two nodes: the materialization [A] depends on the name
    [A], which the map resolves to the assertion [A]; no cycle is found and
    both nodes are returned. *)
Example build_collision :
  build sampleAdapter collidingGraph (runOf ["A"] false)
  = Done {| eg_projectConfig := tt;
            eg_runConfig := runOf ["A"] false;
            eg_nodes :=
              [ {| name := "A"; dependencies := ["A"];
                   tasks := [createTable "A"] |};
                {| name := "A"; dependencies := [];
                   tasks := [ {| type := Some "assertion";
                                 statement := "select 1" |} ] |} ] |}.
Proof. vm_compute. reflexivity. Qed.

(** The circle [A], [B], [C] is reported from [A]. *)
Example build_circle :
  build sampleAdapter circularGraph (runOf [] false)
  = Throw (CircularDependency ["A"; "B"; "C"] "A")
  ∧ message (CircularDependency ["A"; "B"; "C"] "A")
    = "Circular dependency detected in chain: [A > B > C > A]".
Proof. split; vm_compute; reflexivity. Qed.

(** Without [includeDependencies], [A] is returned alone and loses its
    dependency on [B]. *)
Example build_partial :
  build sampleAdapter sampleGraph (runOf ["A"] false)
  = Done {| eg_projectConfig := tt;
            eg_runConfig := runOf ["A"] false;
            eg_nodes :=
              [ {| name := "A"; dependencies := [];
                   tasks := [createTable "A"] |} ] |}.
Proof. vm_compute. reflexivity. Qed.

(** Pruning lists the dependencies kept in the order of the names of the
    nodes, which need not be the order in which they were declared. *)
Example build_default_order :
  build sampleAdapter
        (graphOf [mat "A" ["C"; "B"]; mat "B" []; mat "C" []] [] [])
        (runOf [] false)
  = Done {| eg_projectConfig := tt;
            eg_runConfig := runOf [] false;
            eg_nodes :=
              [ {| name := "A"; dependencies := ["B"; "C"];
                   tasks := [createTable "A"] |};
                {| name := "B"; dependencies := [];
                   tasks := [createTable "B"] |};
                {| name := "C"; dependencies := [];
                   tasks := [createTable "C"] |} ] |}.
Proof. vm_compute. reflexivity. Qed.

(** The dependencies [C], [B], [C] of [A] are plain names of nodes, and
    everything is selected; yet the dependencies returned are [B], [C]. *)
Lemma build_default_selection_changes_list :
  dependenciesExist (translate sampleAdapter repeatedGraph (runOf [] false))
  ∧ ¬ hasCycle (translate sampleAdapter repeatedGraph (runOf [] false))
  ∧ rc_nodes (runOf [] false) = Some []
  ∧ includeDependencies (runOf [] false) = false
  ∧ ∃ eg out node,
      build sampleAdapter repeatedGraph (runOf [] false) = Done eg
      ∧ translate sampleAdapter repeatedGraph (runOf [] false) !! 0 = Some node
      ∧ eg_nodes eg !! 0 = Some out
      ∧ name out = name node
      ∧ Forall wildcardFree (dependencies node)
      ∧ dependencies node = ["C"; "B"; "C"]
      ∧ dependencies out = ["B"; "C"]
      ∧ dependencies out ≠ dependencies node.
Proof.
  split; [apply checkDependenciesExist_Done; vm_compute; reflexivity|].
  split; [apply (checkAllCircular_Done _ 4); vm_compute; reflexivity|].
  split; [reflexivity|]. split; [reflexivity|].
  eexists _, _, _. split; [vm_compute; reflexivity|].
  split; [vm_compute; reflexivity|]. split; [vm_compute; reflexivity|].
  split; [reflexivity|]. split.
  - repeat constructor; apply (bool_decide_unpack _); vm_compute; exact I.
  - split; [reflexivity|]. split; [reflexivity|]. discriminate.
Qed.
(** * Further properties of the builder *)

Section Selection.

Context {ProjectConfig Body : Type}.
Context (adapter_build :
  ProjectConfig → Materialization Body → RunConfig → list ExecutionTask).

Local Abbreviation translate' := (translate adapter_build).
Local Abbreviation build' := (build adapter_build).

Lemma build_nodes (g : CompiledGraph ProjectConfig Body) (rc : RunConfig) eg :
  build' g rc = Done eg →
  eg_nodes eg
  = prune (select (translate' g rc) rc).1
      <$> includedOf (translate' g rc) (select (translate' g rc) rc).1.
Proof.
  intros H. apply build_Done in H as (_ & _ & ->). unfold selected. simpl.
  f_equal. apply (select_consistent (translate' g rc) rc).
Qed.

(** The names of the nodes returned are the final [includedNodeNames]. *)
Lemma build_returned_names (g : CompiledGraph ProjectConfig Body)
    (rc : RunConfig) eg x :
  build' g rc = Done eg →
  x ∈ (name <$> eg_nodes eg) ↔ x ∈ (select (translate' g rc) rc).1.
Proof.
  intros H. rewrite (build_nodes g rc eg H), <-list_fmap_compose.
  rewrite list_elem_of_fmap. split.
  - intros (n & -> & Hn). by apply elem_of_includedOf in Hn as [? _].
  - intros Hx. pose proof (select_subseteq (translate' g rc) rc x Hx) as Hall.
    apply list_elem_of_fmap in Hall as (n & -> & Hn).
    exists n. split; [done|]. by apply elem_of_includedOf.
Qed.

(** X1: for every run configuration, the nodes returned are some of the
    translated nodes, in the order of translation, none twice, each with
    its name and its tasks; only dependencies are changed. *)
Theorem build_nodes_sublist (g : CompiledGraph ProjectConfig Body)
    (rc : RunConfig) (eg : ExecutionGraph ProjectConfig) :
  build' g rc = Done eg →
  ((λ n, (name n, tasks n)) <$> eg_nodes eg)
    `sublist_of` ((λ n, (name n, tasks n)) <$> translate' g rc)
  ∧ length (eg_nodes eg) ≤ length (translate' g rc).
Proof.
  intros H. rewrite (build_nodes g rc eg H).
  set (names := (select (translate' g rc) rc).1).
  split.
  - rewrite <-list_fmap_compose.
    change ((λ n, (name n, tasks n)) ∘ prune names)
      with (λ n : ExecutionNode, (name n, tasks n)).
    apply fmap_sublist, sublist_filter.
  - rewrite length_fmap. apply sublist_length, sublist_filter.
Qed.

(** X2: a node returned keeps, of its declared dependencies, those that
    are names of nodes returned: every such dependency is kept, and what is
    kept is the name of a node returned that a declared dependency matches.
    When the declared dependencies have no wildcard, the dependencies kept
    are exactly the declared ones that are names of nodes returned. *)
Theorem build_prunes_to_returned (g : CompiledGraph ProjectConfig Body)
    (rc : RunConfig) (eg : ExecutionGraph ProjectConfig) (out : ExecutionNode) :
  build' g rc = Done eg → out ∈ eg_nodes eg →
  ∃ n, n ∈ translate' g rc ∧ name out = name n ∧ tasks out = tasks n
       ∧ (∀ d, d ∈ dependencies n → d ∈ (name <$> eg_nodes eg) →
               d ∈ dependencies out)
       ∧ (∀ d, d ∈ dependencies out →
               d ∈ (name <$> eg_nodes eg)
               ∧ ∃ p, p ∈ dependencies n ∧ matchPattern p d = true)
       ∧ (Forall wildcardFree (dependencies n) →
          ∀ d, d ∈ dependencies out
               ↔ d ∈ dependencies n ∧ d ∈ (name <$> eg_nodes eg)).
Proof.
  intros H Hout.
  pose proof (λ x, build_returned_names g rc eg x H) as Hnames.
  rewrite (build_nodes g rc eg H) in Hout.
  apply list_elem_of_fmap in Hout as (n & -> & Hn).
  apply elem_of_includedOf in Hn as [_ Hn].
  exists n. split; [done|]. split; [done|]. split; [done|]. simpl.
  assert (∀ d, d ∈ dependencies n → d ∈ (name <$> eg_nodes eg) →
    d ∈ matchPatterns (dependencies n) (select (translate' g rc) rc).1)
    as Hkeep.
  { intros d Hd Hret. apply matchPatterns_exact; [done|]. by apply Hnames. }
  assert (∀ d,
    d ∈ matchPatterns (dependencies n) (select (translate' g rc) rc).1 →
    d ∈ (name <$> eg_nodes eg)
    ∧ ∃ p, p ∈ dependencies n ∧ matchPattern p d = true) as Hkept.
  { intros d Hd. apply elem_of_matchPatterns in Hd as [Hd Hp].
    split; [by apply Hnames|done]. }
  split; [done|]. split; [done|].
  intros Hw d. split.
  - intros Hd. destruct (Hkept d Hd) as [Hret (p & Hp & Hm)].
    split; [|done]. rewrite Forall_forall in Hw.
    by rewrite <-(matchPattern_wildcardFree p d (Hw p Hp) Hm).
  - intros [Hd Hret]. by apply Hkeep.
Qed.

(** X3: with [includeDependencies], no node returned loses a dependency:
    every dependency that a returned node declares is the name of a node
    returned and is still among its dependencies. *)
Theorem build_expanded_keeps_dependencies
    (g : CompiledGraph ProjectConfig Body) (rc : RunConfig)
    (eg : ExecutionGraph ProjectConfig) (out : ExecutionNode) :
  includeDependencies rc = true → build' g rc = Done eg →
  out ∈ eg_nodes eg →
  ∃ n, n ∈ translate' g rc ∧ name out = name n
       ∧ ∀ d, d ∈ dependencies n →
              d ∈ dependencies out ∧ d ∈ (name <$> eg_nodes eg).
Proof.
  intros Hdeps H Hout.
  pose proof (λ x, build_returned_names g rc eg x H) as Hnames.
  rewrite (build_nodes g rc eg H) in Hout.
  apply build_Done in H as (Hex & _ & _).
  apply list_elem_of_fmap in Hout as (n & -> & Hn).
  apply elem_of_includedOf in Hn as [Hname Hn].
  exists n. split; [done|]. split; [done|]. intros d Hd.
  assert (d ∈ (select (translate' g rc) rc).1) as Hin.
  { assert (dependencyClosed (translate' g rc)
              (select (translate' g rc) rc).1) as Hcl.
    { unfold select. rewrite Hdeps.
      apply expand_closed; [done|apply initialNames_subseteq]. }
    apply (Hcl (name n) d Hname). exists n. split; [done|]. split; [done|].
    apply matchPatterns_exact; [done|]. by eapply Hex. }
  split; [|by apply Hnames]. simpl. by apply matchPatterns_exact.
Qed.

(** X4: with selectors and without [includeDependencies], the nodes
    returned are the nodes whose name a selector matches; selectors that
    match no name give a graph without nodes, not an error. *)
Theorem build_selects_matching (g : CompiledGraph ProjectConfig Body)
    (rc : RunConfig) (eg : ExecutionGraph ProjectConfig) (p : string)
    (ps : list string) :
  rc_nodes rc = Some (p :: ps) → includeDependencies rc = false →
  build' g rc = Done eg →
  (∀ x, x ∈ (name <$> eg_nodes eg)
        ↔ x ∈ (name <$> translate' g rc)
          ∧ ∃ q, q ∈ p :: ps ∧ matchPattern q x = true)
  ∧ ((∀ x q, x ∈ (name <$> translate' g rc) → q ∈ p :: ps →
             matchPattern q x = false) →
     eg_nodes eg = []).
Proof.
  intros Hnodes Hdeps H.
  assert (∀ x, x ∈ (name <$> eg_nodes eg)
               ↔ x ∈ (name <$> translate' g rc)
                 ∧ ∃ q, q ∈ p :: ps ∧ matchPattern q x = true) as Hiff.
  { intros x. rewrite (build_returned_names g rc eg x H).
    unfold select, initialNames. rewrite Hdeps, Hnodes. simpl.
    apply elem_of_matchPatterns. }
  split; [done|]. intros Hnone.
  destruct (eg_nodes eg) as [|n l] eqn:Heq; [done|]. exfalso.
  destruct (proj1 (Hiff (name n))) as [Hn (q & Hq & Hm)].
  { rewrite fmap_cons. by left. }
  by rewrite (Hnone _ _ Hn Hq) in Hm.
Qed.

(** X5: asking for the dependencies only adds nodes: every node returned
    without [includeDependencies] is returned with it. *)
Theorem build_expansion_monotone (g : CompiledGraph ProjectConfig Body)
    (nodes : option (list string)) (eg eg' : ExecutionGraph ProjectConfig) :
  build' g {| rc_nodes := nodes; includeDependencies := false |} = Done eg →
  build' g {| rc_nodes := nodes; includeDependencies := true |} = Done eg' →
  (name <$> eg_nodes eg) ⊆ (name <$> eg_nodes eg').
Proof.
  intros H H' x Hx.
  apply (build_returned_names g _ eg x H) in Hx.
  apply (build_returned_names g _ eg' x H').
  unfold select in *. simpl in Hx |- *.
  unfold expand. apply iter_expandPass_mono; [done|]. simpl.
  unfold initialNames in *. simpl in *.
  rewrite translate_names in Hx. by rewrite translate_names.
Qed.

(** X6: when [runConfig.nodes] is absent or empty, [includeDependencies]
    changes nothing: with or without it all the translated nodes are
    returned, pruned against the names of all nodes. *)
Theorem build_all_nodes (g : CompiledGraph ProjectConfig Body)
    (rc : RunConfig) (eg : ExecutionGraph ProjectConfig) :
  rc_nodes rc = None ∨ rc_nodes rc = Some [] → build' g rc = Done eg →
  eg_nodes eg = prune (name <$> translate' g rc) <$> translate' g rc.
Proof.
  intros Hnodes H. apply build_Done in H as (_ & _ & ->).
  unfold selected. simpl.
  set (allNodes := translate' g rc).
  assert (includedOf allNodes (name <$> allNodes) = allNodes) as Hall.
  { apply includedOf_all. intros n Hn. by apply list_elem_of_fmap_2. }
  assert (select allNodes rc = (name <$> allNodes, allNodes)) as ->; [|done].
  unfold select. rewrite initialNames_default, Hall by done.
  destruct (includeDependencies rc); [|done].
  unfold expand.
  assert (expandPass allNodes (name <$> allNodes) (name <$> allNodes, allNodes)
          = (name <$> allNodes, allNodes)) as Hfix.
  { unfold expandPass. simpl.
    assert (∀ l, foldl (expandNode allNodes (name <$> allNodes))
                       (name <$> allNodes, allNodes) l
                 = (name <$> allNodes, allNodes)) as Hl; [|apply Hl].
    induction l as [|n l IH]; [done|]. simpl.
    unfold expandNode at 2. simpl. rewrite foldl_pushNew_id.
    - by rewrite Hall.
    - rewrite matchingNodeNames_eq. apply matchPatterns_subseteq. }
  induction (length allNodes) as [|k IH]; [done|]. simpl. by rewrite IH.
Qed.

End Selection.
(** ** Validation: which error, and where the traversal stops *)

Lemma checkCircular_not_missing (allNodes : list ExecutionNode)
    (nameMap : gmap string nat) fuel node dependents n d :
  checkCircular allNodes nameMap fuel node dependents
    ≠ Throw (MissingDependency n d).
Proof.
  revert node dependents.
  induction fuel as [|fuel IH]; intros node dependents H; [done|].
  simpl in H. case_bool_decide; [done|].
  destruct (allNodes !! node) as [x|]; [|done].
  apply forEach_Throw in H as (d1 & d0 & d2 & _ & _ & H).
  destruct (nameMap !! d0) as [j|]; [|done]. by eapply IH.
Qed.

Lemma seq_split_before (n i : nat) (l1 l2 : list nat) :
  seq 0 n = l1 ++ i :: l2 → ∀ j, j < i → j ∈ l1.
Proof.
  intros Hseq j Hj.
  assert (i = length l1) as ->.
  { assert (seq 0 n !! length l1 = Some i) as H.
    { rewrite Hseq. apply list_lookup_middle. done. }
    apply lookup_seq in H as [-> _]. done. }
  assert (seq 0 n !! j = Some j) as H.
  { apply lookup_seq. split; [done|].
    apply (f_equal length) in Hseq.
    rewrite length_seq, length_app in Hseq. simpl in Hseq. lia. }
  rewrite Hseq, lookup_app_l in H by done.
  by eapply list_elem_of_lookup_2.
Qed.

Section Traversal.

Context (allNodes : list ExecutionNode).

Local Abbreviation check := (checkCircular allNodes (nodeNameMap allNodes)).

Lemma dependencyPath_lt l x :
  dependencyPath allNodes l → x ∈ l → x < length allNodes.
Proof.
  induction l as [|a l IH]; intros Hp Hx; [by apply not_elem_of_nil in Hx|].
  destruct l as [|b l].
  - apply list_elem_of_singleton in Hx as ->. done.
  - apply dependencyPath_cons in Hp as [Hab Hp].
    apply elem_of_cons in Hx as [->|Hx]; [by eapply dependsOn_lt_l|].
    by apply IH.
Qed.

Lemma dependencyPath_app_l l1 l2 :
  dependencyPath allNodes (l1 ++ l2) → dependencyPath allNodes l1.
Proof.
  induction l1 as [|a l1 IH]; [done|]. intros Hp.
  destruct l1 as [|b l1].
  - simpl. apply (dependencyPath_lt _ a Hp). by left.
  - change (dependencyPath allNodes (a :: b :: (l1 ++ l2))) in Hp.
    apply dependencyPath_cons in Hp as [Hab Hp].
    apply dependencyPath_cons. split; [done|]. by apply IH.
Qed.

(** From the first node of a path one reaches each of its nodes. *)
Lemma dependencyPath_rtc a l x :
  dependencyPath allNodes (a :: l) → x ∈ a :: l →
  rtc (dependsOn allNodes) a x.
Proof.
  intros Hp Hx. apply list_elem_of_split in Hx as (l1 & l2 & Heq).
  destruct l1 as [|b l1]; simplify_eq/=; [done|].
  apply tc_rtc, (dependencyPath_tc _ _ l1).
  apply (dependencyPath_app_l (b :: l1 ++ [x]) l2).
  simpl. by rewrite <-app_assoc.
Qed.

(** The chain thrown has no repetition and extends the chain received. *)
Lemma checkCircular_Throw_chain fuel node dependents e :
  dependenciesExist allNodes →
  dependencyPath allNodes (dependents ++ [node]) → NoDup dependents →
  check fuel node dependents = Throw e →
  ∃ chain r, e = CircularDependency (nodeName allNodes <$> chain)
                                    (nodeName allNodes r)
             ∧ NoDup chain ∧ r ∈ chain
             ∧ dependencyPath allNodes (chain ++ [r])
             ∧ ((node ∈ dependents ∧ chain = dependents)
                ∨ (dependents ++ [node]) `prefix_of` chain).
Proof.
  intros Hex. revert node dependents.
  induction fuel as [|fuel IH]; intros node dependents Hp Hnd H; [done|].
  simpl in H. case_bool_decide as Hin.
  - exists dependents, node. simplify_eq. by eauto 10.
  - pose proof (dependencyPath_last _ _ _ Hp) as Hlt.
    apply lookup_lt_is_Some_2 in Hlt as [n Hn]. rewrite Hn in H.
    apply forEach_Throw in H as (d1 & d & d2 & Hd & _ & H).
    assert (d ∈ dependencies n) as Hdn.
    { rewrite Hd. apply elem_of_app. right. by left. }
    assert (d ∈ name <$> allNodes) as Hdname.
    { eapply Hex; [|done]. by eapply list_elem_of_lookup_2. }
    apply lastNamed_exists in Hdname as [j Hj].
    rewrite (proj2 (nodeNameMap_lookup _ _ _) Hj) in H.
    apply IH in H as (chain & r & -> & Hndc & Hr & Hchain & Hpre).
    + exists chain, r. split; [done|]. split; [done|]. split; [done|].
      split; [done|]. right. destruct Hpre as [[_ ->]|Hpre]; [done|].
      etrans; [|done]. by apply prefix_app_r.
    + apply dependencyPath_snoc; [done|]. by exists n, d.
    + apply NoDup_app. split; [done|]. split; [|apply NoDup_singleton].
      intros x Hx Hx'. apply list_elem_of_singleton in Hx'. by subst.
Qed.

(** A check that returns has found no cycle on its way. *)
Lemma checkCircular_Done_acyclic fuel node dependents :
  check fuel node dependents = Done tt →
  ∀ j, rtc (dependsOn allNodes) node j → ¬ tc (dependsOn allNodes) j j.
Proof.
  revert node dependents.
  induction fuel as [|fuel IH]; intros node dependents H; [done|].
  pose proof (checkCircular_Done allNodes _ _ _ H) as Hself.
  simpl in H. case_bool_decide as Hin; [done|].
  destruct (allNodes !! node) as [n|] eqn:Hn; [|done].
  rewrite forEach_Done in H.
  intros j Hj. destruct Hj as [|node k j Hnk Hkj].
  - intros Hcyc. apply (Hself _ Hcyc). apply elem_of_app. right. by left.
  - destruct Hnk as (n' & d & Hn' & Hd & Hk). simplify_eq.
    specialize (H d Hd).
    rewrite (proj2 (nodeNameMap_lookup _ _ _) Hk) in H.
    by eapply IH.
Qed.

(** Started at a node of the graph with an empty chain, a check that does
    not return throws a chain that starts at that node. *)
Lemma checkCircular_root_Throw (i : nat) :
  dependenciesExist allNodes → i < length allNodes →
  check (S (length allNodes)) i [] ≠ Done tt →
  ∃ rest r,
    check (S (length allNodes)) i []
    = Throw (CircularDependency (nodeName allNodes <$> i :: rest)
                                (nodeName allNodes r))
    ∧ NoDup (i :: rest) ∧ r ∈ i :: rest
    ∧ dependencyPath allNodes ((i :: rest) ++ [r]).
Proof.
  intros Hex Hi Hnot.
  destruct (check (S (length allNodes)) i []) as [[]|e|] eqn:H; [done| |].
  - apply checkCircular_Throw_chain in H
      as (chain & r & -> & Hnd & Hr & Hp & Hpre);
      [|done|done|apply NoDup_nil_2].
    destruct Hpre as [[Hbad _]|Hpre]; [by apply not_elem_of_nil in Hbad|].
    destruct Hpre as [rest ->]. simpl in *. by exists rest, r.
  - exfalso. revert H. apply checkCircular_fuel.
    + apply NoDup_nil_2.
    + intros x Hx. by apply not_elem_of_nil in Hx.
    + simpl. lia.
Qed.

(** X7: with all dependencies present, the check started at a node returns
    exactly when no cycle can be reached from that node; otherwise it throws
    a chain that starts at that node, has no repetition and ends by coming
    back to one of its nodes. *)
Theorem checkCircular_root (i : nat) :
  dependenciesExist allNodes → i < length allNodes →
  (check (S (length allNodes)) i [] = Done tt
   ↔ ∀ j, rtc (dependsOn allNodes) i j → ¬ tc (dependsOn allNodes) j j)
  ∧ (check (S (length allNodes)) i [] ≠ Done tt →
     ∃ rest r,
       check (S (length allNodes)) i []
       = Throw (CircularDependency (nodeName allNodes <$> i :: rest)
                                   (nodeName allNodes r))
       ∧ NoDup (i :: rest) ∧ r ∈ i :: rest
       ∧ dependencyPath allNodes ((i :: rest) ++ [r])).
Proof.
  intros Hex Hi.
  pose proof (checkCircular_root_Throw i Hex Hi) as Hthrow.
  split; [|done]. split.
  - apply checkCircular_Done_acyclic.
  - intros Hno.
    destruct (check (S (length allNodes)) i []) as [[]|e|] eqn:Hc; [done| |].
    all: destruct Hthrow as (rest & r & _ & _ & Hr & Hp); [done|]; exfalso.
    all: apply (Hno r).
    all: try (apply (dependencyPath_rtc i rest); [|done];
              by apply (dependencyPath_app_l (i :: rest) [r])).
    all: apply list_elem_of_split in Hr as (l1 & l2 & Heq); rewrite Heq in Hp.
    all: rewrite <-app_assoc in Hp; apply dependencyPath_app_r in Hp.
    all: by eapply dependencyPath_tc.
Qed.

End Traversal.
Section Errors.

Context {ProjectConfig Body : Type}.
Context (adapter_build :
  ProjectConfig → Materialization Body → RunConfig → list ExecutionTask).

Local Abbreviation translate' := (translate adapter_build).
Local Abbreviation build' := (build adapter_build).

(** X8: the missing dependency reported is the first one met when the
    nodes are read in the order of translation and the dependencies of a
    node in the order of declaration: the nodes before the one reported
    have all their dependencies, and so have the dependencies declared
    before the one reported. *)
Theorem build_reports_first_missing (g : CompiledGraph ProjectConfig Body)
    (rc : RunConfig) (node d : string) :
  build' g rc = Throw (MissingDependency node d) →
  ∃ l1 n l2 d1 d2,
    translate' g rc = l1 ++ n :: l2 ∧ name n = node
    ∧ dependencies n = d1 ++ d :: d2
    ∧ ¬ (d ∈ name <$> translate' g rc)
    ∧ (∀ m x, m ∈ l1 → x ∈ dependencies m → x ∈ (name <$> translate' g rc))
    ∧ (∀ x, x ∈ d1 → x ∈ (name <$> translate' g rc)).
Proof.
  unfold build. intros H.
  destruct (checkDependenciesExist (translate' g rc)
              (name <$> translate' g rc)) as [[]|e|] eqn:Hex;
    simpl in H; [|simplify_eq|done].
  - exfalso.
    destruct (checkAllCircular (translate' g rc)
                (nodeNameMap (translate' g rc))
                (S (length (translate' g rc)))) as [[]|e|] eqn:Hc;
      simpl in H; [done| |done].
    simplify_eq. apply forEach_Throw in Hc as (? & i & ? & _ & _ & Hc).
    by apply checkCircular_not_missing in Hc.
  - unfold checkDependenciesExist in Hex.
    apply forEach_Throw in Hex as (l1 & n & l2 & Hl & Hl1 & Hn).
    apply forEach_Throw in Hn as (d1 & d' & d2 & Hd & Hd1 & Hd').
    case_bool_decide as Hmissing; [done|]. simplify_eq.
    exists l1, n, l2, d1, d2. split; [done|]. split; [done|].
    split; [done|]. split; [done|]. split.
    + intros m x Hm Hx. specialize (Hl1 m Hm). rewrite forEach_Done in Hl1.
      specialize (Hl1 x Hx). by case_bool_decide.
    + intros x Hx. specialize (Hd1 x Hx). by case_bool_decide.
Qed.

(** X9: the chain of a circular-dependency error starts at the first
    node, in the order of translation, from which a cycle can be reached;
    it follows dependencies from node to node, names no node twice before
    the one that closes the cycle, and so is no longer than the list of
    nodes. *)
Theorem build_circular_chain (g : CompiledGraph ProjectConfig Body)
    (rc : RunConfig) (chain : list string) (node : string) :
  build' g rc = Throw (CircularDependency chain node) →
  ∃ root rest r,
    chain = nodeName (translate' g rc) <$> root :: rest
    ∧ node = nodeName (translate' g rc) r
    ∧ NoDup (root :: rest) ∧ r ∈ root :: rest
    ∧ dependencyPath (translate' g rc) ((root :: rest) ++ [r])
    ∧ length chain ≤ length (translate' g rc)
    ∧ (∀ i j, i < root → rtc (dependsOn (translate' g rc)) i j →
              ¬ tc (dependsOn (translate' g rc)) j j).
Proof.
  unfold build. intros H.
  destruct (checkDependenciesExist (translate' g rc)
              (name <$> translate' g rc)) as [[]|e|] eqn:Hex;
    simpl in H; [| |done].
  2: { simplify_eq. by apply checkDependenciesExist_Throw in Hex
         as (? & ? & ? & _). }
  apply checkDependenciesExist_Done in Hex.
  destruct (checkAllCircular (translate' g rc) (nodeNameMap (translate' g rc))
              (S (length (translate' g rc)))) as [[]|e|] eqn:Hc;
    simpl in H; [done| |done].
  simplify_eq.
  apply forEach_Throw in Hc as (l1 & root & l2 & Hseq & Hl1 & Hc).
  assert (root < length (translate' g rc)) as Hroot.
  { assert (root ∈ seq 0 (length (translate' g rc))) as Hin.
    { rewrite Hseq. apply elem_of_app. right. by left. }
    apply elem_of_seq in Hin. lia. }
  destruct (checkCircular_root_Throw (translate' g rc) root Hex Hroot)
    as (rest & r & Heq & Hnd & Hr & Hp); [by rewrite Hc|].
  rewrite Hc in Heq. simplify_eq.
  exists root, rest, r. split; [done|]. split; [done|]. split; [done|].
  split; [done|]. split; [done|]. split.
  - etrans;
      [apply Nat.eq_le_incl,
         (length_fmap (nodeName (translate' g rc)) (root :: rest))|].
    apply NoDup_bounded_length; [done|].
    intros x Hx. apply (dependencyPath_lt _ ((root :: rest) ++ [r])); [done|].
    apply elem_of_app. by left.
  - intros i j Hi.
    apply (checkCircular_Done_acyclic (translate' g rc)
             (S (length (translate' g rc))) i []).
    apply Hl1. by eapply seq_split_before.
Qed.

End Errors.
(** ** What depends on the adapter and on the run configuration *)

Lemma forEach_fmap {A B : Type} (f : B → outcome unit) (g : A → B)
    (l : list A) :
  forEach f (g <$> l) = forEach (λ x, f (g x)) l.
Proof.
  induction l as [|x l IH]; [done|].
  rewrite fmap_cons. cbn [forEach]. by rewrite IH.
Qed.

Lemma skeleton_names (l : list ExecutionNode) :
  name <$> (skeleton <$> l) = name <$> l.
Proof. by rewrite <-list_fmap_compose. Qed.

Lemma fillNameMap_skeleton (m : gmap string nat) (i : nat)
    (l : list ExecutionNode) :
  fillNameMap m i (skeleton <$> l) = fillNameMap m i l.
Proof.
  revert m i. induction l as [|n l IH]; intros m i; [done|]. simpl.
  by rewrite IH.
Qed.

Lemma nodeName_skeleton (l : list ExecutionNode) (i : nat) :
  nodeName (skeleton <$> l) i = nodeName l i.
Proof.
  unfold nodeName. rewrite list_lookup_fmap. by destruct (l !! i).
Qed.

Lemma checkCircular_skeleton (l : list ExecutionNode)
    (nameMap : gmap string nat) fuel node dependents :
  checkCircular (skeleton <$> l) nameMap fuel node dependents
  = checkCircular l nameMap fuel node dependents.
Proof.
  revert node dependents.
  induction fuel as [|fuel IH]; intros node dependents; [done|]. simpl.
  rewrite nodeName_skeleton, list_lookup_fmap.
  assert (nodeName (skeleton <$> l) <$> dependents
          = nodeName l <$> dependents) as ->.
  { apply list_fmap_ext. intros ? x _. apply nodeName_skeleton. }
  case_bool_decide; [done|].
  destruct (l !! node) as [n|]; [|done]. simpl.
  apply forEach_ext. intros d _. destruct (nameMap !! d); [|done]. apply IH.
Qed.

(** Validation reads the names and the dependencies only. *)
Lemma validate_skeleton (l : list ExecutionNode) :
  validate (skeleton <$> l) = validate l.
Proof.
  unfold validate, nodeNameMap.
  rewrite skeleton_names, fillNameMap_skeleton, length_fmap.
  assert (checkDependenciesExist (skeleton <$> l) (name <$> l)
          = checkDependenciesExist l (name <$> l)) as ->.
  { unfold checkDependenciesExist. by rewrite forEach_fmap. }
  destruct (checkDependenciesExist l (name <$> l)) as [[]|e|]; [|done|done].
  simpl. unfold checkAllCircular. rewrite length_fmap.
  apply forEach_ext. intros i _. apply checkCircular_skeleton.
Qed.

Lemma includedOf_skeleton (l : list ExecutionNode) (names : list string) :
  includedOf (skeleton <$> l) names = skeleton <$> includedOf l names.
Proof.
  unfold includedOf. induction l as [|n l IH]; [done|].
  rewrite fmap_cons, !filter_cons. simpl.
  destruct (decide (name n ∈ names)); simpl; by rewrite IH.
Qed.

Section Bare.

Context (allNodes : list ExecutionNode) (allNodeNames : list string).

Lemma expandNode_bare st n :
  expandNode (skeleton <$> allNodes) allNodeNames (bare st) (skeleton n)
  = bare (expandNode allNodes allNodeNames st n).
Proof. unfold expandNode, bare. simpl. by rewrite includedOf_skeleton. Qed.

Lemma expandNodes_bare l st :
  foldl (expandNode (skeleton <$> allNodes) allNodeNames) (bare st)
        (skeleton <$> l)
  = bare (foldl (expandNode allNodes allNodeNames) st l).
Proof.
  revert st. induction l as [|n l IH]; intros st; [done|]. simpl.
  by rewrite expandNode_bare, IH.
Qed.

Lemma expandPass_bare st :
  expandPass (skeleton <$> allNodes) allNodeNames (bare st)
  = bare (expandPass allNodes allNodeNames st).
Proof. unfold expandPass. apply expandNodes_bare. Qed.

Lemma iter_expandPass_bare k st :
  Nat.iter k (expandPass (skeleton <$> allNodes) allNodeNames) (bare st)
  = bare (Nat.iter k (expandPass allNodes allNodeNames) st).
Proof.
  induction k as [|k IH]; [done|]. simpl. by rewrite IH, expandPass_bare.
Qed.

End Bare.

(** Selection reads the names and the dependencies only. *)
Lemma select_skeleton (l : list ExecutionNode) (rc : RunConfig) :
  select (skeleton <$> l) rc = bare (select l rc).
Proof.
  unfold select. rewrite skeleton_names, includedOf_skeleton.
  destruct (includeDependencies rc); [|done].
  unfold expand. rewrite length_fmap.
  apply (iter_expandPass_bare l (name <$> l) (length l)
           (initialNames rc (name <$> l),
            includedOf l (initialNames rc (name <$> l)))).
Qed.

Section Independence.

Context {ProjectConfig Body : Type}.

Lemma translate_skeleton
    (adapter1 adapter2 :
       ProjectConfig → Materialization Body → RunConfig → list ExecutionTask)
    (g : CompiledGraph ProjectConfig Body) (rc1 rc2 : RunConfig) :
  skeleton <$> translate adapter1 g rc1 = skeleton <$> translate adapter2 g rc2.
Proof.
  unfold translate. rewrite !fmap_app, <-!list_fmap_compose. done.
Qed.

Lemma build_validate
    (adapter_build :
       ProjectConfig → Materialization Body → RunConfig → list ExecutionTask)
    (g : CompiledGraph ProjectConfig Body) (rc : RunConfig) :
  build adapter_build g rc
  = (validate (translate adapter_build g rc) ;;
     Done (selected adapter_build g rc)).
Proof.
  unfold build, validate.
  destruct (checkDependenciesExist _ _) as [[]|e|]; [|done|done]. simpl.
  by destruct (checkAllCircular _ _ _) as [[]|e|].
Qed.

(** X10: whether [build] fails, and with which error, depends on the
    names and the dependencies of the entities only: neither the run
    configuration nor the adapter changes it.  A graph that fails
    validation fails it whatever is selected. *)
Theorem build_error_independent
    (adapter1 adapter2 :
       ProjectConfig → Materialization Body → RunConfig → list ExecutionTask)
    (g : CompiledGraph ProjectConfig Body) (rc1 rc2 : RunConfig) :
  (∀ e, build adapter1 g rc1 = Throw e ↔ build adapter2 g rc2 = Throw e)
  ∧ ((∃ eg, build adapter1 g rc1 = Done eg)
     ↔ (∃ eg, build adapter2 g rc2 = Done eg)).
Proof.
  rewrite !build_validate.
  assert (validate (translate adapter1 g rc1)
          = validate (translate adapter2 g rc2)) as ->.
  { rewrite <-(validate_skeleton (translate adapter1 g rc1)).
    rewrite (translate_skeleton adapter1 adapter2 g rc1 rc2).
    apply validate_skeleton. }
  destruct (validate (translate adapter2 g rc2)) as [[]|e|]; simpl.
  - split; [done|]. split; intros _; by eexists.
  - split; [done|]. split; by intros [? ?].
  - split; [done|]. split; by intros [? ?].
Qed.

(** X11: the adapter gives the tasks of the materializations and nothing
    else: with two adapters and the same run configuration, [build]
    returns nodes of the same names, in the same order, with the same
    dependencies. *)
Theorem build_adapter_independent
    (adapter1 adapter2 :
       ProjectConfig → Materialization Body → RunConfig → list ExecutionTask)
    (g : CompiledGraph ProjectConfig Body) (rc : RunConfig)
    (eg1 eg2 : ExecutionGraph ProjectConfig) :
  build adapter1 g rc = Done eg1 → build adapter2 g rc = Done eg2 →
  skeleton <$> eg_nodes eg1 = skeleton <$> eg_nodes eg2
  ∧ eg_projectConfig eg1 = eg_projectConfig eg2
  ∧ eg_runConfig eg1 = eg_runConfig eg2.
Proof.
  intros H1 H2.
  apply build_Done in H1 as (_ & _ & ->).
  apply build_Done in H2 as (_ & _ & ->).
  unfold selected. simpl. split; [|done].
  assert (∀ l, skeleton <$> (prune (select l rc).1 <$> (select l rc).2)
               = prune (select (skeleton <$> l) rc).1
                   <$> (select (skeleton <$> l) rc).2) as Hsk.
  { intros l. rewrite select_skeleton. unfold bare. simpl.
    by rewrite <-!list_fmap_compose. }
  rewrite !Hsk. by rewrite (translate_skeleton adapter1 adapter2 g rc rc).
Qed.

End Independence.
(** ** What [build] writes *)

Section StoreEffects.

Context {ProjectConfig Body : Type}.
Context (adapter_build :
  ProjectConfig → Materialization Body → RunConfig → list ExecutionTask).

(** X12: when [build] returns, the array [allNodeNames] holds the names
    of all nodes as at its creation, though [includedNodeNames], which is
    pushed to, may be that same array.  The node objects that are not
    returned are as they were created, their [dependencies] still the array
    of their entity; a node object returned has the name and the tasks it
    was created with, and another array as [dependencies]. *)
Theorem build_store_effects (h : list (list string))
    (g : CompiledGraphObject ProjectConfig Body) (rc : RunConfigObject)
    (s : store) (eg : ExecutionGraphObject ProjectConfig) :
  validInput h g rc → buildObject adapter_build h g rc = Done (s, eg) →
  arrays s !! length h
  = Some (no_name <$> translateObjects adapter_build h g rc)
  ∧ (∀ i, i ∉ ego_nodes eg →
          objects s !! i = translateObjects adapter_build h g rc !! i)
  ∧ (∀ i o, i ∈ ego_nodes eg → objects s !! i = Some o →
       ∃ o0, translateObjects adapter_build h g rc !! i = Some o0
             ∧ no_name o = no_name o0 ∧ no_tasks o = no_tasks o0
             ∧ no_dependencies o0 < length h
             ∧ length h ≤ no_dependencies o).
Proof.
  intros Hval Hs.
  pose proof (translateObjects_valid adapter_build h g rc Hval) as Hobjs.
  pose proof (selectObject_spec adapter_build h g rc Hval)
    as (Hag & Hids & Hnodes).
  unfold buildObject, alloc in Hs. cbn [arrays objects] in Hs.
  destruct (validateObject _ _) as [[]|e|]; simpl in Hs; [|done|done].
  set (objs := translateObjects adapter_build h g rc) in *.
  set (sel := selectObject (length h) rc
                {| arrays := h ++ [no_name <$> objs]; objects := objs |}) in *.
  pose proof (agrees_prefix _ _ _ _ _ Hag) as Hp.
  assert (validObjects sel.2.1) as Hv.
  { intros j o Ho. destruct Hag as (Hobj & _). rewrite Hobj in Ho.
    rewrite Forall_forall in Hobjs.
    pose proof (Hobjs o (list_elem_of_lookup_2 _ _ _ Ho)) as Hlt.
    apply prefix_length in Hp. lia. }
  pose proof (agrees_included_lt _ _ _ _ _ _ _ Hag) as Hinc.
  assert (NoDup sel.2.2) as Hnd by (rewrite Hids; apply idsOf_NoDup).
  destruct (foldl_pruneObject sel.1 sel.2.2 sel.2.1 Hnd Hv Hinc)
    as (Hp3 & _ & Hout & Hin & Hfresh).
  simplify_eq. simpl. split; [|split].
  - eapply prefix_lookup_Some; [|done].
    destruct Hag as (_ & [(_ & _ & ->)|(_ & ->)]);
      by apply list_lookup_middle.
  - intros i Hi. rewrite Hout by done. by destruct Hag as (-> & _).
  - intros i o Hi Ho. specialize (Hfresh i o Hi Ho).
    specialize (Hin i Hi). unfold view in Hin. rewrite Ho in Hin.
    destruct Hag as (Hobj & _). rewrite Hobj in Hin.
    destruct (objs !! i) as [o0|] eqn:Ho0; [|done]. simpl in Hin.
    exists o0. split; [done|].
    injection Hin as Hname _ Htasks.
    split; [done|]. split; [done|].
    rewrite Forall_forall in Hobjs.
    pose proof (Hobjs o0 (list_elem_of_lookup_2 _ _ _ Ho0)) as Hlt.
    apply prefix_length in Hp. split; [done|]. lia.
Qed.

End StoreEffects.
Section NoDependencies.

Context {ProjectConfig Body : Type}.
Context (adapter_build :
  ProjectConfig → Materialization Body → RunConfig → list ExecutionTask).

(** X13: a graph whose entities declare no dependency, the empty graph
    among them, passes validation: [build] returns a graph for every run
    configuration, and its nodes have no dependencies. *)
Theorem build_without_dependencies (g : CompiledGraph ProjectConfig Body)
    (rc : RunConfig) :
  (∀ m, m ∈ materializations g → m_dependencies m = []) →
  (∀ o, o ∈ operations g → o_dependencies o = []) →
  (∀ a, a ∈ assertions g → a_dependencies a = []) →
  ∃ eg, build adapter_build g rc = Done eg
        ∧ ∀ node, node ∈ eg_nodes eg → dependencies node = [].
Proof.
  intros Hm Ho Ha.
  assert (∀ n, n ∈ translate adapter_build g rc → dependencies n = [])
    as Hnone.
  { intros n Hn. unfold translate in Hn.
    rewrite !elem_of_app, !list_elem_of_fmap in Hn.
    destruct Hn as [(m & -> & Hin)|[(o & -> & Hin)|(a & -> & Hin)]];
      simpl; auto. }
  exists (selected adapter_build g rc). split.
  - apply build_validated.
    + intros n d Hn Hd. rewrite (Hnone n Hn) in Hd.
      by apply not_elem_of_nil in Hd.
    + intros [i Hi].
      assert (∀ j, ¬ dependsOn (translate adapter_build g rc) i j) as Hno.
      { intros j (n & d & Hn & Hd & _).
        rewrite (Hnone n) in Hd by (by eapply list_elem_of_lookup_2).
        by apply not_elem_of_nil in Hd. }
      inversion Hi as [? ? H|? k ? H _]; by apply Hno in H.
  - intros node Hnode. unfold selected in Hnode. simpl in Hnode.
    apply list_elem_of_fmap in Hnode as (n & -> & Hn). simpl.
    rewrite (select_consistent (translate adapter_build g rc) rc) in Hn.
    apply elem_of_includedOf in Hn as [_ Hn].
    rewrite (Hnone n Hn). apply matchPatterns_nil.
Qed.

End NoDependencies.
(** ** The further properties on the sample project *)

Lemma sample_expanded_built :
  build sampleAdapter sampleGraph (runOf ["A"] true) = Done sampleExpanded.
Proof. vm_compute. reflexivity. Defined.

Lemma sample_node_A :
  {| name := "A"; dependencies := ["B"]; tasks := [createTable "A"] |}
    ∈ eg_nodes sampleExpanded.
Proof. vm_compute. constructor. Defined.

Lemma build_nodes_sublist_witness :
  build sampleAdapter sampleGraph (runOf ["A"] true) = Done sampleExpanded
  ∧ length (eg_nodes sampleExpanded)
    ≤ length (translate sampleAdapter sampleGraph (runOf ["A"] true)).
Proof.
  split; [exact sample_expanded_built|].
  apply (proj2 (build_nodes_sublist sampleAdapter sampleGraph
                  (runOf ["A"] true) sampleExpanded sample_expanded_built)).
Defined.

Lemma build_prunes_to_returned_witness :
  build sampleAdapter sampleGraph (runOf ["A"] true) = Done sampleExpanded
  ∧ ∃ n, n ∈ translate sampleAdapter sampleGraph (runOf ["A"] true)
         ∧ name n = "A".
Proof.
  split; [exact sample_expanded_built|].
  destruct (build_prunes_to_returned sampleAdapter sampleGraph
              (runOf ["A"] true) sampleExpanded _
              sample_expanded_built sample_node_A)
    as (n & Hn & Hname & _).
  exists n. split; [exact Hn|]. symmetry. exact Hname.
Defined.

Lemma build_expanded_keeps_dependencies_witness :
  includeDependencies (runOf ["A"] true) = true
  ∧ ∃ n, n ∈ translate sampleAdapter sampleGraph (runOf ["A"] true)
         ∧ ∀ d, d ∈ dependencies n →
                d ∈ (name <$> eg_nodes sampleExpanded).
Proof.
  split; [reflexivity|].
  destruct (build_expanded_keeps_dependencies sampleAdapter sampleGraph
              (runOf ["A"] true) sampleExpanded _ eq_refl
              sample_expanded_built sample_node_A)
    as (n & Hn & _ & Hd).
  exists n. split; [exact Hn|]. intros d Hin. exact (proj2 (Hd d Hin)).
Defined.

Lemma build_selects_matching_witness :
  rc_nodes (runOf ["A"] false) = Some ["A"]
  ∧ ∃ eg, build sampleAdapter sampleGraph (runOf ["A"] false) = Done eg
          ∧ "A" ∈ (name <$> eg_nodes eg).
Proof.
  split; [reflexivity|].
  eexists. split; [vm_compute; reflexivity|].
  apply (proj1 (build_selects_matching sampleAdapter sampleGraph
                  (runOf ["A"] false) _ "A" [] eq_refl eq_refl
                  ltac:(vm_compute; reflexivity))).
  split; [vm_compute; constructor|].
  exists "A". split; [constructor|reflexivity].
Defined.

Lemma build_expansion_monotone_witness :
  ∃ eg eg',
    build sampleAdapter sampleGraph
          {| rc_nodes := Some ["A"]; includeDependencies := false |} = Done eg
    ∧ build sampleAdapter sampleGraph
            {| rc_nodes := Some ["A"]; includeDependencies := true |} = Done eg'
    ∧ (name <$> eg_nodes eg) ⊆ (name <$> eg_nodes eg').
Proof.
  eexists _, _. split; [vm_compute; reflexivity|].
  split; [vm_compute; reflexivity|].
  apply (build_expansion_monotone sampleAdapter sampleGraph (Some ["A"]));
    vm_compute; reflexivity.
Defined.

Lemma build_all_nodes_witness :
  rc_nodes (runOf [] true) = Some []
  ∧ ∃ eg, build sampleAdapter sampleGraph (runOf [] true) = Done eg
          ∧ eg_nodes eg
            = prune (name <$> translate sampleAdapter sampleGraph
                                        (runOf [] true))
                <$> translate sampleAdapter sampleGraph (runOf [] true).
Proof.
  split; [reflexivity|].
  eexists. split; [vm_compute; reflexivity|].
  apply (build_all_nodes sampleAdapter sampleGraph (runOf [] true));
    [right; reflexivity|vm_compute; reflexivity].
Defined.

Lemma circularGraph_dependenciesExist :
  dependenciesExist (translate sampleAdapter circularGraph (runOf [] false)).
Proof. apply checkDependenciesExist_Done. vm_compute. reflexivity. Defined.

Lemma checkCircular_root_witness :
  dependenciesExist (translate sampleAdapter circularGraph (runOf [] false))
  ∧ 0 < length (translate sampleAdapter circularGraph (runOf [] false))
  ∧ ∃ rest r,
      checkCircular (translate sampleAdapter circularGraph (runOf [] false))
        (nodeNameMap (translate sampleAdapter circularGraph (runOf [] false)))
        4 0 []
      = Throw (CircularDependency
                 (nodeName (translate sampleAdapter circularGraph
                                      (runOf [] false)) <$> 0 :: rest)
                 (nodeName (translate sampleAdapter circularGraph
                                      (runOf [] false)) r)).
Proof.
  split; [exact circularGraph_dependenciesExist|].
  assert (0 < length (translate sampleAdapter circularGraph (runOf [] false)))
    as Hlt by (vm_compute; lia).
  split; [exact Hlt|].
  destruct (proj2 (checkCircular_root
                     (translate sampleAdapter circularGraph (runOf [] false))
                     0 circularGraph_dependenciesExist Hlt))
    as (rest & r & Heq & _).
  - vm_compute. discriminate.
  - exists rest, r. exact Heq.
Defined.

Lemma build_reports_first_missing_witness :
  build sampleAdapter danglingGraph (runOf [] false)
  = Throw (MissingDependency "A" "D")
  ∧ ¬ ("D" ∈ name <$> translate sampleAdapter danglingGraph (runOf [] false)).
Proof.
  assert (build sampleAdapter danglingGraph (runOf [] false)
          = Throw (MissingDependency "A" "D")) as H
    by (vm_compute; reflexivity).
  split; [exact H|].
  destruct (build_reports_first_missing sampleAdapter danglingGraph
              (runOf [] false) "A" "D" H)
    as (l1 & n & l2 & d1 & d2 & _ & _ & _ & Hnot & _).
  exact Hnot.
Defined.

Lemma build_circular_chain_witness :
  build sampleAdapter circularGraph (runOf [] false)
  = Throw (CircularDependency ["A"; "B"; "C"] "A")
  ∧ length ["A"; "B"; "C"]
    ≤ length (translate sampleAdapter circularGraph (runOf [] false)).
Proof.
  assert (build sampleAdapter circularGraph (runOf [] false)
          = Throw (CircularDependency ["A"; "B"; "C"] "A")) as H
    by (vm_compute; reflexivity).
  split; [exact H|].
  destruct (build_circular_chain sampleAdapter circularGraph (runOf [] false)
              ["A"; "B"; "C"] "A" H)
    as (root & rest & r & _ & _ & _ & _ & _ & Hlen & _).
  exact Hlen.
Defined.

Lemma build_error_independent_witness :
  build sampleAdapter circularGraph (runOf [] false)
  = Throw (CircularDependency ["A"; "B"; "C"] "A")
  ∧ build silentAdapter circularGraph (runOf ["B"] true)
    = Throw (CircularDependency ["A"; "B"; "C"] "A").
Proof.
  assert (build sampleAdapter circularGraph (runOf [] false)
          = Throw (CircularDependency ["A"; "B"; "C"] "A")) as H
    by (vm_compute; reflexivity).
  split; [exact H|].
  apply (proj1 (proj1 (build_error_independent sampleAdapter silentAdapter
                         circularGraph (runOf [] false) (runOf ["B"] true))
                  _)).
  exact H.
Defined.

Lemma build_adapter_independent_witness :
  ∃ eg1 eg2,
    build sampleAdapter sampleGraph (runOf ["A"] true) = Done eg1
    ∧ build silentAdapter sampleGraph (runOf ["A"] true) = Done eg2
    ∧ skeleton <$> eg_nodes eg1 = skeleton <$> eg_nodes eg2.
Proof.
  eexists _, _. split; [vm_compute; reflexivity|].
  split; [vm_compute; reflexivity|].
  apply (proj1 (build_adapter_independent sampleAdapter silentAdapter
                  sampleGraph (runOf ["A"] true) _ _
                  ltac:(vm_compute; reflexivity)
                  ltac:(vm_compute; reflexivity))).
Defined.

Lemma build_store_effects_witness :
  ∃ s eg,
    buildObject sampleAdapter sampleHeap sampleGraphObject sampleRunObject
    = Done (s, eg)
    ∧ arrays s !! length sampleHeap
      = Some (no_name <$> translateObjects sampleAdapter sampleHeap
                            sampleGraphObject sampleRunObject).
Proof.
  eexists _, _. split; [vm_compute; reflexivity|].
  match goal with
  | |- arrays ?s !! _ = _ =>
      apply (proj1 (build_store_effects sampleAdapter sampleHeap
                      sampleGraphObject sampleRunObject s
                      {| ego_projectConfig := tt;
                         ego_runConfig := sampleRunObject;
                         ego_nodes := [0; 1] |}
                      sampleHeap_valid ltac:(vm_compute; reflexivity)))
  end.
Defined.

Lemma build_without_dependencies_witness :
  ∃ eg, build sampleAdapter (graphOf [mat "B" []; mat "C" []] [] [])
              (runOf ["B"] true) = Done eg
        ∧ ∀ node, node ∈ eg_nodes eg → dependencies node = [].
Proof.
  apply (build_without_dependencies sampleAdapter
           (graphOf [mat "B" []; mat "C" []] [] []) (runOf ["B"] true)).
  - intros m Hm. vm_compute in Hm.
    inversion Hm as [|? ? ? Hm']; subst; [reflexivity|].
    inversion Hm' as [|? ? ? Hm'']; subst; [reflexivity|].
    inversion Hm''.
  - intros o Ho. inversion Ho.
  - intros a Ha. inversion Ha.
Defined.
